(** * DoomScroll harvester: [scripts/harvest.py]

    A shallow embedding of the table-to-record pipeline of
    [scripts/harvest.py] and the properties of it that the specification
    states: the text cleaner, the identifier generator, the category
    guesser, the row classifier, the streaming table parser and the
    per-row loop of [main].

    Python text is a sequence of Unicode code points, so a string is a
    list of code points here.  Everything the program does on ASCII is
    written out; the large tables of the Unicode character database that
    the interpreter consults above U+007F are the fields of
    [UnicodeData], and every definition and theorem is stated for an
    arbitrary such database. *)

From Stdlib Require Import ZArith NArith List Ascii String Bool Lia.
From Stdlib Require Import DecimalString DecimalZ.
From stdpp Require Import base decidable countable list gmap.

Local Open Scope N_scope.

(** ** Text *)

Abbreviation char := N (only parsing).
Abbreviation str := (list N) (only parsing).

Definition chr (a : ascii) : char := N_of_ascii a.

(** [u "abc"] is the Python literal ["abc"] (ASCII literals only). *)
Definition u (s : string) : str := map chr (list_ascii_of_string s).
Arguments u s%_string.

Definition in_range (lo hi c : char) : bool := (lo <=? c) && (c <=? hi).

Definition is_digit09 (c : char) : bool := in_range (chr "0") (chr "9") c.
Definition is_lower_az (c : char) : bool := in_range (chr "a") (chr "z") c.
Definition is_upper_AZ (c : char) : bool := in_range (chr "A") (chr "Z") c.

(** [Py_UNICODE_ISSPACE]: what [str.strip()] trims and what [\s] matches in
    a [str] pattern. *)
Definition isspace (c : char) : bool :=
  in_range 0x09 0x0D c || in_range 0x1C 0x20 c || (c =? 0x85) || (c =? 0xA0)
  || (c =? 0x1680) || in_range 0x2000 0x200A c || (c =? 0x2028)
  || (c =? 0x2029) || (c =? 0x202F) || (c =? 0x205F) || (c =? 0x3000).

(** The Unicode character database, for code points above U+007F:
    the decimal-digit property ([\d]), the alphanumeric property ([\w],
    [\b]) and lower-casing, which may depend on the text before and after
    the code point (final sigma) and may yield several code points. *)
Class UnicodeData := {
  uni_decimal : char → bool;
  uni_alnum : char → bool;
  uni_lower : str → char → str → str;
}.

Section Text.
Context {U : UnicodeData}.

(** [\d] in a [str] pattern. *)
Definition isdecimal (c : char) : bool :=
  if c <? 128 then is_digit09 c else uni_decimal c.

(** [\w] in a [str] pattern: alphanumeric or underscore. *)
Definition isword (c : char) : bool :=
  (c =? chr "_")
  || (if c <? 128 then is_digit09 c || is_lower_az c || is_upper_AZ c
      else uni_alnum c).

Definition ascii_lower (c : char) : char :=
  if is_upper_AZ c then c + 32 else c.

(** [str.lower()]. *)
Fixpoint lower_from (before s : str) : str :=
  match s with
  | [] => []
  | c :: rest =>
      (if c <? 128 then [ascii_lower c] else uni_lower before c rest)
      ++ lower_from (before ++ [c]) rest
  end.

Definition lower (s : str) : str := lower_from [] s.

End Text.

Fixpoint drop_while (p : char → bool) (s : str) : str :=
  match s with
  | [] => []
  | c :: rest => if p c then drop_while p rest else s
  end.

(** [s.strip(chars)] for a set of characters given as a predicate. *)
Definition strip_with (p : char → bool) (s : str) : str :=
  rev (drop_while p (rev (drop_while p s))).

(** [s.strip()]. *)
Definition strip (s : str) : str := strip_with isspace s.

Fixpoint starts_with (p s : str) : bool :=
  match p, s with
  | [], _ => true
  | a :: p', b :: s' => (a =? b) && starts_with p' s'
  | _ :: _, [] => false
  end.

(** [needle in hay]. *)
Fixpoint contains (needle hay : str) : bool :=
  starts_with needle hay
  || match hay with
     | [] => false
     | _ :: rest => contains needle rest
     end.

(** [sep.join(parts)]. *)
Fixpoint join (sep : str) (parts : list str) : str :=
  match parts with
  | [] => []
  | [p] => p
  | p :: rest => p ++ sep ++ join sep rest
  end.

(** [str(n)] for an [int]. *)
Definition str_of_int (n : Z) : str := u (NilZero.string_of_int (Z.to_int n)).

(** ** Regular expressions

    Each pattern of the program is a function giving the length of its
    match at the head of the text, [0] for no match: none of the patterns
    passed to [re.sub] matches the empty string.  [re_sub] is
    [re.sub(pattern, repl, text)]: left to right, each match replaced, the
    scan resuming after it. *)

Fixpoint re_sub_from (pat : str → nat) (repl : str) (skip : nat) (s : str) : str :=
  match s with
  | [] => []
  | c :: rest =>
      match skip with
      | S k => re_sub_from pat repl k rest
      | O =>
          match pat s with
          | O => c :: re_sub_from pat repl O rest
          | S k => repl ++ re_sub_from pat repl k rest
          end
      end
  end.

Definition re_sub (pat : str → nat) (repl : str) (s : str) : str :=
  re_sub_from pat repl 0 s.

(** Length of the longest prefix of [s] whose characters satisfy [p]. *)
Fixpoint run (p : char → bool) (s : str) : nat :=
  match s with
  | c :: rest => if p c then S (run p rest) else O
  | [] => O
  end.

(** [p+] for a character class [p]. *)
Definition pat_plus (p : char → bool) : str → nat := run p.

(** A literal. *)
Definition pat_lit (l : str) (s : str) : nat :=
  if starts_with l s then length l else O.

(** [opening \d+ \]]: a literal, one or more decimal digits, a closing
    bracket.  The digits are taken greedily; giving one back never helps,
    since a digit is not a closing bracket. *)
Definition pat_digits_in {U : UnicodeData} (opening : str) (s : str) : nat :=
  if starts_with opening s then
    let rest := drop (length opening) s in
    match run isdecimal rest with
    | O => O
    | S n =>
        match drop (S n) rest with
        | c :: _ => if c =? chr "]" then (length opening + S n + 1)%nat else O
        | [] => O
        end
    end
  else O.

(** ** [clean] *)

Definition clean {U : UnicodeData} (text : str) : str :=
  let text := re_sub (pat_digits_in (u "[")) [] text in
  let text := re_sub (pat_digits_in (u "[note ")) [] text in
  let text := re_sub (pat_lit (u "[a]")) [] text in
  let text := re_sub (pat_plus isspace) (u " ") text in
  strip text.

(** ** [slugify] *)

Definition is_slug_char (c : char) : bool := is_lower_az c || is_digit09 c.

(** The [year] argument is whatever the caller passes: [row_to_entry]
    passes an [int], the default is the empty string. *)
Inductive pyval :=
  | PyInt (n : Z)
  | PyStr (s : str).

Definition py_str (v : pyval) : str :=
  match v with
  | PyInt n => str_of_int n
  | PyStr s => s
  end.

Definition slugify {U : UnicodeData} (text : str) (year : pyval) : str :=
  let s := re_sub (pat_plus (λ c, negb (is_slug_char c))) (u "-")
             (lower (py_str year ++ u "-" ++ take 40 text)) in
  strip_with (λ c, c =? chr "-") s.

(** ** Outcomes of a call

    A call returns, raises, or (for the one [while] loop of the program,
    which is run on fuel) is cut short. *)

Inductive exn := IndexError | KeyError | ValueError.

Inductive result (A : Type) :=
  | Returned (a : A)
  | Raised (e : exn)
  | OutOfFuel.
Arguments Returned {A} a.
Arguments Raised {A} e.
Arguments OutOfFuel {A}.

#[export] Instance result_ret : MRet result := λ A a, Returned a.
#[export] Instance result_bind : MBind result := λ A B f m,
  match m with
  | Returned a => f a
  | Raised e => Raised e
  | OutOfFuel => OutOfFuel
  end.

(** [l[i]]. *)
Definition getitem {A} (l : list A) (i : nat) : result A :=
  match l !! i with
  | Some a => Returned a
  | None => Raised IndexError
  end.

(** ** [guess_category] *)

Definition VALID_CATEGORIES : list str :=
  [ u "Economic Collapse";
    u "Tech Apocalypse";
    u "Environmental Doom";
    u "Political Catastrophe";
    u "Health Crisis";
    u "Social Breakdown";
    u "Food & Resource Scarcity";
    u "War & Conflict" ].

Definition CATEGORY_KEYWORDS : list (str * list str) :=
  [ (u "Economic Collapse",
       map u ["economy"; "financial"; "stock"; "crash"; "bank"; "depression";
              "debt"; "dollar"; "inflation"; "recession"]%string);
    (u "Tech Apocalypse",
       map u ["computer"; "internet"; "ai"; "robot"; "nuclear plant";
              "technology"; "software"; "cyber"; "y2k"]%string);
    (u "Environmental Doom",
       map u ["climate"; "ozone"; "pollution"; "asteroid"; "comet"; "flood";
              "ice age"; "warming"; "cooling"; "sea level"; "extinction";
              "biodiversity"]%string);
    (u "Political Catastrophe",
       map u ["war"; "election"; "government"; "fascism"; "communism";
              "dictatorship"; "coup"; "democracy"]%string);
    (u "Health Crisis",
       map u ["pandemic"; "plague"; "virus"; "disease"; "epidemic"; "flu";
              "cancer"; "aids"; "ebola"; "bacteria"]%string);
    (u "Social Breakdown",
       map u ["crime"; "drugs"; "violence"; "moral"; "youth"; "media";
              "society"; "culture"]%string);
    (u "Food & Resource Scarcity",
       map u ["food"; "famine"; "hunger"; "water"; "oil"; "energy";
              "resource"; "population"; "starvation"]%string);
    (u "War & Conflict",
       map u ["nuclear war"; "world war"; "armageddon"; "invasion"; "missile";
              "bomb"; "military"]%string) ].

(** A [dict] with string keys and integer values, in insertion order
    (the order [max] iterates in). *)
Abbreviation dict := (list (str * Z)) (only parsing).

Fixpoint dict_get (d : dict) (k : str) : result Z :=
  match d with
  | [] => Raised KeyError
  | (k', v) :: d' => if decide (k' = k) then Returned v else dict_get d' k
  end.

(** [d[k] = v]: an existing key keeps its place. *)
Fixpoint dict_set (d : dict) (k : str) (v : Z) : dict :=
  match d with
  | [] => [(k, v)]
  | (k', v') :: d' =>
      if decide (k' = k) then (k, v) :: d' else (k', v') :: dict_set d' k v
  end.

(** [for kw in keywords: if kw in text: scores[cat] += 1]. *)
Fixpoint score_keywords (text cat : str) (keywords : list str) (scores : dict)
  : result dict :=
  match keywords with
  | [] => Returned scores
  | kw :: rest =>
      if contains kw text then
        v ← dict_get scores cat;
        score_keywords text cat rest (dict_set scores cat (v + 1)%Z)
      else score_keywords text cat rest scores
  end.

(** [for cat, keywords in CATEGORY_KEYWORDS.items(): ...]. *)
Fixpoint score_all (text : str) (items : list (str * list str)) (scores : dict)
  : result dict :=
  match items with
  | [] => Returned scores
  | (cat, keywords) :: rest =>
      scores ← score_keywords text cat keywords scores;
      score_all text rest scores
  end.

(** [max(scores, key=scores.get)]: the first key whose value is largest
    ([max] replaces its candidate only by a strictly larger one), the value
    [scores.get] gives for a key being the one listed with it;
    [ValueError] on an empty [dict]. *)
Fixpoint max_from (best : str * Z) (items : dict) : str :=
  match items with
  | [] => fst best
  | (k, v) :: rest => max_from (if (snd best <? v)%Z then (k, v) else best) rest
  end.

Definition max_key (scores : dict) : result str :=
  match scores with
  | [] => Raised ValueError
  | first :: rest => Returned (max_from first rest)
  end.

Definition guess_category {U : UnicodeData} (text : str) : result str :=
  let text := lower text in
  let scores := map (λ cat, (cat, 0%Z)) VALID_CATEGORIES in
  scores ← score_all text CATEGORY_KEYWORDS scores;
  best ← max_key scores;
  v ← dict_get scores best;
  Returned (if (0 <? v)%Z then best else u "Political Catastrophe").

(** ** [row_to_entry] *)

(** The entry [dict], its keys prefixed by [e_]. *)
Record entry := {
  e_id : str;
  e_year : Z;
  e_prediction : str;
  e_source : str;
  e_reality : str;
  e_category : str;
  e_tags : list str;
  e_harvested : bool;
}.

(** [\b]: exactly one of the characters before and after the position is a
    word character (an end of the text counts as none). *)
Definition at_boundary {U : UnicodeData} (prev : option char) (s : str) : bool :=
  xorb (from_option isword false prev) (from_option isword false (head s)).

(** [\b(1[0-9]{3}|20[0-2][0-9])\b] at the head of [s], the character before it
    being [prev]: the text of group 1. *)
Definition pat_year {U : UnicodeData} (prev : option char) (s : str) : option str :=
  if at_boundary prev s then
    match s with
    | c1 :: c2 :: c3 :: c4 :: rest =>
        if ((c1 =? chr "1") && is_digit09 c2 && is_digit09 c3 && is_digit09 c4
            || (c1 =? chr "2") && (c2 =? chr "0") && in_range (chr "0") (chr "2") c3
               && is_digit09 c4)
           && at_boundary (Some c4) rest
        then Some [c1; c2; c3; c4]
        else None
    | _ => None
    end
  else None.

(** [re.search] of the year pattern: the leftmost match. *)
Fixpoint search_year {U : UnicodeData} (prev : option char) (s : str) : option str :=
  match pat_year prev s with
  | Some g => Some g
  | None =>
      match s with
      | [] => None
      | c :: rest => search_year (Some c) rest
      end
  end.

Definition digit_value (c : char) : Z := Z.of_N c - 48.

(** [int(s)] for a non-empty string of the digits 0 to 9; any other string
    is counted as a [ValueError], which is more than Python raises on. *)
Definition py_int (s : str) : result Z :=
  match s with
  | [] => Raised ValueError
  | _ =>
      if forallb is_digit09 s
      then Returned (fold_left (λ acc c, acc * 10 + digit_value c)%Z s 0%Z)
      else Raised ValueError
  end.

Definition HEADER_WORDS : list str :=
  map u ["date"; "year"; "century"; "event"; "prediction"]%string.

(** The em dash is U+2014. *)
Definition LOW_INFORMATION : list str :=
  [u "no"; u "yes"; u "none"; u "n/a"; [0x2014]; u "-"].

(** [while entry_id in existing_ids: entry_id = f"{base_id}-{counter}"; counter += 1]. *)
Fixpoint unique_id (fuel : nat) (existing_ids : gset str) (base_id entry_id : str)
    (counter : Z) : result str :=
  if decide (entry_id ∈ existing_ids) then
    match fuel with
    | O => OutOfFuel
    | S fuel' =>
        unique_id fuel' existing_ids base_id
          (base_id ++ u "-" ++ str_of_int counter) (counter + 1)%Z
    end
  else Returned entry_id.

Definition fallback_year (year : Z) : Z :=
  if (year <? 2020)%Z then (year + 5)%Z else 2025%Z.

Definition synthesized (year : Z) : str :=
  u "The predicted event did not occur as described by "
  ++ str_of_int (fallback_year year) ++ u ".".

Definition nonempty {A} (l : list A) : bool :=
  match l with [] => false | _ => true end.

(** The result is [Some] record or [None], Python's [None]. *)
Definition row_to_entry_fuel {U : UnicodeData} (fuel : nat) (row : list str) (hint : str)
    (existing_ids : gset str) : result (option entry) :=
  if (length row <? 3)%nat then Returned None else
  let cells := map clean row in
  c0 ← getitem cells 0;
  if existsb (λ h, contains h (lower c0)) HEADER_WORDS then Returned None else
  if (length cells <? 3)%nat then Returned None else
  c0 ← getitem cells 0;
  if negb (nonempty c0) then Returned None else
  c0 ← getitem cells 0;
  match search_year None c0 with
  | None => Returned None
  | Some group1 =>
      year ← py_int group1;
      if (2026 <=? year)%Z then Returned None else
      shape ←
        (if (4 <=? length cells)%nat then
           claimant ← getitem cells 1;
           prediction ← getitem cells 2;
           outcome ← (if (3 <? length cells)%nat then getitem cells 3 else Returned []);
           Returned (claimant, prediction, outcome)
         else
           claimant ← getitem cells 1;
           prediction ← getitem cells 1;
           outcome ← (if (2 <? length cells)%nat then getitem cells 2 else Returned []);
           Returned (claimant, prediction, outcome));
      let '(claimant, prediction, outcome) := shape in
      if negb (nonempty prediction) || (length prediction <? 15)%nat then Returned None else
      let base_id := slugify (claimant ++ u "-" ++ take 20 prediction) (PyInt year) in
      entry_id ← unique_id fuel existing_ids base_id base_id 1;
      let combined := prediction ++ u " " ++ outcome ++ u " " ++ hint in
      category ← guess_category combined;
      let reality :=
        if nonempty outcome && (20 <? length outcome)%nat
           && negb (bool_decide (lower outcome ∈ LOW_INFORMATION))
        then outcome
        else synthesized year in
      Returned (Some {|
        e_id := entry_id;
        e_year := year;
        e_prediction := prediction;
        e_source :=
          if nonempty claimant && negb (bool_decide (claimant = prediction))
          then claimant else u "Unknown";
        e_reality := reality;
        e_category := category;
        e_tags := [];
        e_harvested := true;
      |})
  end.

(** The collision loop stops within [size existing_ids] rounds
    ([unique_id_enough] below), so this is the function with its loop run
    to the end. *)
Definition row_to_entry {U : UnicodeData} (row : list str) (hint : str)
    (existing_ids : gset str) : result (option entry) :=
  row_to_entry_fuel (S (size existing_ids)) row hint existing_ids.

(** ** [TableParser]

    [HTMLParser.feed] turns markup into calls of the three handlers; a piece
    of markup is given here as that sequence of calls. *)

Inductive event :=
  | StartTag (tag : str) (attrs : list (str * option str))
  | EndTag (tag : str)
  | Data (data : str).

Abbreviation table := (list (list str)) (only parsing).

Record TableParser := {
  tables : list table;
  _current_table : option table;
  _current_row : option (list str);
  _current_cell : option (list str);
  _depth : Z;
}.

Definition new_parser : TableParser :=
  {| tables := []; _current_table := None; _current_row := None;
     _current_cell := None; _depth := 0 |}.

Definition set_tables (v : list table) (p : TableParser) : TableParser :=
  {| tables := v; _current_table := _current_table p; _current_row := _current_row p;
     _current_cell := _current_cell p; _depth := _depth p |}.
Definition set_current_table (v : option table) (p : TableParser) : TableParser :=
  {| tables := tables p; _current_table := v; _current_row := _current_row p;
     _current_cell := _current_cell p; _depth := _depth p |}.
Definition set_current_row (v : option (list str)) (p : TableParser) : TableParser :=
  {| tables := tables p; _current_table := _current_table p; _current_row := v;
     _current_cell := _current_cell p; _depth := _depth p |}.
Definition set_current_cell (v : option (list str)) (p : TableParser) : TableParser :=
  {| tables := tables p; _current_table := _current_table p; _current_row := _current_row p;
     _current_cell := v; _depth := _depth p |}.
Definition set_depth (v : Z) (p : TableParser) : TableParser :=
  {| tables := tables p; _current_table := _current_table p; _current_row := _current_row p;
     _current_cell := _current_cell p; _depth := v |}.

Definition is_tag (name : string) (tag : str) : bool := bool_decide (tag = u name).
Definition is_cell_tag (tag : str) : bool := is_tag "td" tag || is_tag "th" tag.

Definition handle_starttag (self : TableParser) (tag : str)
    (attrs : list (str * option str)) : TableParser :=
  if is_tag "table" tag then
    let self := set_depth (_depth self + 1) self in
    if (_depth self =? 1)%Z then set_current_table (Some []) self else self
  else if is_tag "tr" tag && (_depth self =? 1)%Z then
    set_current_row (Some []) self
  else if is_cell_tag tag && (_depth self =? 1)%Z && bool_decide (is_Some (_current_row self)) then
    set_current_cell (Some []) self
  else self.

Definition handle_endtag (self : TableParser) (tag : str) : TableParser :=
  if is_tag "table" tag then
    let self :=
      match _current_table self with
      | Some t =>
          if (_depth self =? 1)%Z
          then set_current_table None (set_tables (tables self ++ [t]) self)
          else self
      | None => self
      end in
    set_depth (_depth self - 1) self
  else if is_tag "tr" tag && (_depth self =? 1)%Z then
    let self :=
      match _current_row self, _current_table self with
      | Some (c :: cs), Some t => set_current_table (Some (t ++ [c :: cs])) self
      | _, _ => self
      end in
    set_current_row None self
  else if is_cell_tag tag && (_depth self =? 1)%Z then
    let self :=
      match _current_cell self, _current_row self with
      | Some cell, Some row =>
          set_current_row (Some (row ++ [strip (join (u " ") cell)])) self
      | _, _ => self
      end in
    set_current_cell None self
  else self.

Definition handle_data (self : TableParser) (data : str) : TableParser :=
  match _current_cell self with
  | Some cell =>
      let stripped := strip data in
      if nonempty stripped then set_current_cell (Some (cell ++ [stripped])) self
      else self
  | None => self
  end.

Definition handle (self : TableParser) (e : event) : TableParser :=
  match e with
  | StartTag tag attrs => handle_starttag self tag attrs
  | EndTag tag => handle_endtag self tag
  | Data data => handle_data self data
  end.

Definition feed (self : TableParser) (markup : list event) : TableParser :=
  fold_left handle markup self.

Definition extract_tables (html : list event) : list table :=
  tables (feed new_parser html).

(** ** The loop of [main]

    [targets] is the curator list after the [--source] filter and [limit]
    is [--limit].  [fetch title] is what [wiki_fetch_html] answered, as the
    handler calls its markup makes, or [None] when the [try] block raised. *)

Record run_state := {
  existing_ids : gset str;
  new_entries : list entry;
}.

Section Main.
Context {U : UnicodeData}.
Variable fetch : str → option (list event).
Variable limit : Z.

(** [args.limit and len(new_entries) >= args.limit]. *)
Definition limit_reached (st : run_state) : bool :=
  negb (limit =? 0)%Z && (limit <=? Z.of_nat (length (new_entries st)))%Z.

Fixpoint rows_loop (hint title : str) (rows : table) (st : run_state) : result run_state :=
  match rows with
  | [] => Returned st
  | row :: rest =>
      entry ← row_to_entry row (hint ++ u " " ++ title)
                (existing_ids st ∪ list_to_set (map e_id (new_entries st)));
      match entry with
      | Some e =>
          let st := {| existing_ids := existing_ids st ∪ {[ e_id e ]};
                       new_entries := new_entries st ++ [e] |} in
          if limit_reached st then Returned st else rows_loop hint title rest st
      | None => rows_loop hint title rest st
      end
  end.

Fixpoint tables_loop (hint title : str) (tabs : list table) (st : run_state) : result run_state :=
  match tabs with
  | [] => Returned st
  | t :: rest =>
      st ← rows_loop hint title t st;
      if limit_reached st then Returned st else tables_loop hint title rest st
  end.

Fixpoint targets_loop (targets : list (str * str)) (st : run_state) : result run_state :=
  match targets with
  | [] => Returned st
  | (title, hint) :: rest =>
      match fetch title with
      | None => targets_loop rest st
      | Some html =>
          st ← tables_loop hint title (extract_tables html) st;
          if limit_reached st then Returned st else targets_loop rest st
      end
  end.

(** [main] up to its report, returning [new_entries]; [db] is
    [db["entries"]] as loaded. *)
Definition main (db : list entry) (targets : list (str * str)) : result (list entry) :=
  st ← targets_loop targets
         {| existing_ids := list_to_set (map e_id db); new_entries := [] |};
  Returned (new_entries st).

End Main.

(** ** [parse_curator]

    [text] is what [path.read_text()] returned. *)

(** The line boundaries of [str.splitlines()]. *)
Definition is_linebreak (c : char) : bool :=
  in_range 0x0A 0x0D c || in_range 0x1C 0x1E c || (c =? 0x85)
  || (c =? 0x2028) || (c =? 0x2029).

(** [text.splitlines()]: a carriage return followed by a line feed is one
    boundary ([skip_lf] says the last character was a carriage return),
    and a text that ends in a boundary has no empty last line. *)
Fixpoint splitlines_from (line : str) (skip_lf : bool) (s : str) : list str :=
  match s with
  | [] => if nonempty line then [line] else []
  | c :: rest =>
      if skip_lf && (c =? 0x0A) then splitlines_from line false rest
      else if is_linebreak c then line :: splitlines_from [] (c =? 0x0D) rest
      else splitlines_from (line ++ [c]) false rest
  end.

Definition splitlines (s : str) : list str := splitlines_from [] false s.

(** The text before the first [sep], and the text after it when there is
    one. *)
Fixpoint cut_at (sep : char) (s : str) : str * option str :=
  match s with
  | [] => ([], None)
  | c :: rest =>
      if c =? sep then ([], Some rest)
      else let '(a, b) := cut_at sep rest in (c :: a, b)
  end.

(** [s.split(sep, 1)] for a separator of one character. *)
Definition split_once (sep : char) (s : str) : list str :=
  match cut_at sep s with
  | (a, Some b) => [a; b]
  | (a, None) => [a]
  end.

Fixpoint parse_lines (lines : list str) (targets : list (str * str))
  : result (list (str * str)) :=
  match lines with
  | [] => Returned targets
  | line :: rest =>
      let line := strip line in
      if negb (nonempty line) || starts_with (u "#") line then parse_lines rest targets
      else
        let parts := map strip (split_once (chr "|") line) in
        title ← getitem parts 0;
        hint ← (if (1 <? length parts)%nat then getitem parts 1 else Returned []);
        parse_lines rest (targets ++ [(title, hint)])
  end.

Definition parse_curator (text : str) : result (list (str * str)) :=
  parse_lines (splitlines text) [].

(** * Notions the statements are written in *)

(** ** Tokens, slugs and candidate ids *)

(** The maximal non-empty runs of characters that are not separators, in
    order: [str.split()] when the separators are the whitespace
    characters. *)
Definition push_char (c : char) (ts : list str) : list str :=
  match ts with
  | t :: ts' => (c :: t) :: ts'
  | [] => [[c]]
  end.

Fixpoint tokens (sep : char → bool) (s : str) : list str :=
  match s with
  | [] => []
  | c :: rest =>
      if sep c then tokens sep rest
      else
        match rest with
        | d :: _ => if sep d then [c] :: tokens sep rest else push_char c (tokens sep rest)
        | [] => [[c]]
        end
  end.

(** The slug of a text: its maximal runs of [a-z0-9] after lower-casing,
    joined by hyphens. *)
Definition slug_of {U : UnicodeData} (s : str) : str :=
  join (u "-") (tokens (λ c, negb (is_slug_char c)) (lower s)).

(** The candidates of the collision loop: the base id, then the base id
    with the suffixes [-1], [-2], ... *)
Definition candidate (base_id : str) (k : Z) : str :=
  base_id ++ u "-" ++ str_of_int k.

(** ** Citation markers *)

(** The three citation passes of [clean], before the whitespace is
    normalised. *)
Definition strip_citations {U : UnicodeData} (text : str) : str :=
  re_sub (pat_lit (u "[a]")) []
    (re_sub (pat_digits_in (u "[note ")) []
       (re_sub (pat_digits_in (u "[")) [] text)).






















(** ** Category scores *)

(** The number of keywords of a category that occur in the lower-cased
    text. *)
Definition keyword_hits {U : UnicodeData} (text : str) (keywords : list str) : Z :=
  Z.of_nat (length (filter (λ kw, contains kw (lower text) = true) keywords)).

Definition keywords_of (cat : str) : list str :=
  from_option snd [] (find (λ item, bool_decide (fst item = cat)) CATEGORY_KEYWORDS).

Definition score {U : UnicodeData} (text cat : str) : Z :=
  keyword_hits text (keywords_of cat).

(** The number of keyword hits in a text that is already lower-cased. *)
Definition hits_in (text : str) (keywords : list str) : Z :=
  Z.of_nat (length (filter (λ kw, contains kw text = true) keywords)).

Definition default_category : str := u "Political Catastrophe".

(** ** The row classifier *)

(** The text the year pattern can match: 1000 to 1999, or 2000 to 2029. *)
Definition is_year_token (g : str) : bool :=
  match g with
  | [c1; c2; c3; c4] =>
      (c1 =? chr "1") && is_digit09 c2 && is_digit09 c3 && is_digit09 c4
      || (c1 =? chr "2") && (c2 =? chr "0") && in_range (chr "0") (chr "2") c3
         && is_digit09 c4
  | _ => false
  end.

(** Shape detection on the cleaned cells: first cell, claimant,
    prediction, outcome; [None] below three cells. *)
Definition detect_shape (cells : list str) : option (str * str * str * str) :=
  match cells with
  | c0 :: c1 :: c2 :: c3 :: _ => Some (c0, c1, c2, c3)
  | [c0; c1; c2] => Some (c0, c1, c1, c2)
  | _ => None
  end.

(** [row_to_entry] once its cells are read: [c0] is the first cleaned cell
    and [claimant], [prediction], [outcome] are what the shape detection
    picked. *)
Definition finish_entry {U : UnicodeData} (fuel : nat) (existing_ids : gset str)
    (hint c0 claimant prediction outcome : str) : result (option entry) :=
  if existsb (λ h, contains h (lower c0)) HEADER_WORDS then Returned None else
  if negb (nonempty c0) then Returned None else
  match search_year None c0 with
  | None => Returned None
  | Some group1 =>
      year ← py_int group1;
      if (2026 <=? year)%Z then Returned None else
      if negb (nonempty prediction) || (length prediction <? 15)%nat then Returned None else
      let base_id := slugify (claimant ++ u "-" ++ take 20 prediction) (PyInt year) in
      entry_id ← unique_id fuel existing_ids base_id base_id 1;
      let combined := prediction ++ u " " ++ outcome ++ u " " ++ hint in
      category ← guess_category combined;
      let reality :=
        if nonempty outcome && (20 <? length outcome)%nat
           && negb (bool_decide (lower outcome ∈ LOW_INFORMATION))
        then outcome
        else synthesized year in
      Returned (Some {|
        e_id := entry_id;
        e_year := year;
        e_prediction := prediction;
        e_source :=
          if nonempty claimant && negb (bool_decide (claimant = prediction))
          then claimant else u "Unknown";
        e_reality := reality;
        e_category := category;
        e_tags := [];
        e_harvested := true;
      |})
  end.

(** The row of the specification's scenario. *)
Definition batra_row : list str :=
  [ u "1999"; u "Ravi Batra"; u "The US economy will collapse by 2000 due to debt";
    u "It did not happen" ].

(** A row like the scenario's, with an outcome of more than 20 characters. *)
Definition batra_row_long : list str :=
  [ u "1999"; u "Ravi Batra"; u "The US economy will collapse by 2000 due to debt";
    u "The collapse did not happen at all" ].

(** ** The loop of [main] *)

(** What every pass of the loop keeps: the known ids contain the ids of the
    store and of the records accepted so far, and the accepted ids are
    pairwise distinct and none of them is in the store. *)
Record ids_distinct (db : list entry) (st : run_state) : Prop := {
  known_store : ∀ i, i ∈ map e_id db → i ∈ existing_ids st;
  known_accepted : ∀ i, i ∈ map e_id (new_entries st) → i ∈ existing_ids st;
  known_only : ∀ i, i ∈ existing_ids st →
                    i ∈ map e_id db ∨ i ∈ map e_id (new_entries st);
  accepted_NoDup : NoDup (map e_id (new_entries st));
  accepted_new : ∀ i, i ∈ map e_id (new_entries st) → i ∉ map e_id db;
}.

(** ** Well-formed markup of a table

    A table as a tree: rows of cells, a cell holding text, tags that are
    not table structure, and nested tables; between the rows and between
    the cells, filler (whitespace text, [tbody] and the like).  A nested
    table is any markup whose [table] tags are balanced. *)

Abbreviation attrs := (list (str * option str)) (only parsing).

Inductive cell_item :=
  | Text (s : str)
  | Inline (e : event)
  | NestedTable (a : attrs) (inner : list event).

Inductive row_item :=
  | Cell (header : bool) (a : attrs) (content : list cell_item)
  | RowFiller (e : event).

Inductive table_item :=
  | Row (a : attrs) (items : list row_item)
  | TableFiller (e : event).

Definition is_structural (tag : str) : bool :=
  is_tag "table" tag || is_tag "tr" tag || is_cell_tag tag.

Definition is_other_tag (e : event) : bool :=
  match e with
  | StartTag tag _ | EndTag tag => negb (is_structural tag)
  | Data _ => false
  end.

Definition is_filler (e : event) : bool :=
  match e with
  | Data _ => true
  | _ => is_other_tag e
  end.

(** The [table] tags of [markup] are balanced, [opened] tables being open
    at its start. *)
Fixpoint balanced (opened : nat) (markup : list event) : bool :=
  match markup with
  | [] => bool_decide (opened = O)
  | StartTag tag _ :: rest =>
      if is_tag "table" tag then balanced (S opened) rest else balanced opened rest
  | EndTag tag :: rest =>
      if is_tag "table" tag then
        match opened with
        | S o => balanced o rest
        | O => false
        end
      else balanced opened rest
  | Data _ :: rest => balanced opened rest
  end.

Definition cell_item_ok (x : cell_item) : bool :=
  match x with
  | Text _ => true
  | Inline e => is_other_tag e
  | NestedTable _ inner => balanced 0 inner
  end.

Definition row_item_ok (x : row_item) : bool :=
  match x with
  | Cell _ _ content => forallb cell_item_ok content
  | RowFiller e => is_filler e
  end.

Definition table_item_ok (x : table_item) : bool :=
  match x with
  | Row _ items => forallb row_item_ok items
  | TableFiller e => is_filler e
  end.

Definition cell_tag (header : bool) : str := if header then u "th" else u "td".

Definition render_cell_item (x : cell_item) : list event :=
  match x with
  | Text s => [Data s]
  | Inline e => [e]
  | NestedTable a inner => StartTag (u "table") a :: inner ++ [EndTag (u "table")]
  end.

Definition render_row_item (x : row_item) : list event :=
  match x with
  | Cell header a content =>
      StartTag (cell_tag header) a :: flat_map render_cell_item content
      ++ [EndTag (cell_tag header)]
  | RowFiller e => [e]
  end.

Definition render_table_item (x : table_item) : list event :=
  match x with
  | Row a items => StartTag (u "tr") a :: flat_map render_row_item items ++ [EndTag (u "tr")]
  | TableFiller e => [e]
  end.

Definition render_table (a : attrs) (t : list table_item) : list event :=
  StartTag (u "table") a :: flat_map render_table_item t ++ [EndTag (u "table")].

(** The text fragments of a piece of markup: its character data, trimmed,
    the blank ones dropped. *)
Definition fragment (data : str) : list str :=
  if nonempty (strip data) then [strip data] else [].

Definition data_fragments (markup : list event) : list str :=
  flat_map (λ e, match e with Data s => fragment s | _ => [] end) markup.

Definition cell_item_fragments (x : cell_item) : list str :=
  match x with
  | Text s => fragment s
  | Inline _ => []
  | NestedTable _ inner => data_fragments inner
  end.

(** The text of a cell of the outer table: all its fragments, those of
    nested tables included, joined by single spaces. *)
Definition cell_text (content : list cell_item) : str :=
  strip (join (u " ") (flat_map cell_item_fragments content)).

(** The cells of a row of the outer table, and its rows. *)
Definition row_cells (items : list row_item) : list str :=
  flat_map (λ x, match x with Cell _ _ content => [cell_text content] | RowFiller _ => [] end)
    items.

Definition own_rows (t : list table_item) : list (list str) :=
  flat_map (λ x, match x with Row _ items => [row_cells items] | TableFiller _ => [] end) t.

(** The rows the parser keeps: it drops a row without cells. *)
Definition kept_rows (t : list table_item) : list (list str) :=
  filter (λ r, r ≠ []) (own_rows t).

(** The number of rows ([tr] elements) of the outer table. *)
Definition outer_row_count (t : list table_item) : nat :=
  length (flat_map (λ x, match x with Row _ _ => [()] | TableFiller _ => [] end) t).

(** An outer table of one row and two cells, the first cell holding text, a
    nested table of one row and one cell, and more text. *)
Definition nested_example : list table_item :=
  [ TableFiller (Data (u " "));
    Row []
      [ Cell false []
          [ Text (u " A ");
            NestedTable []
              [ StartTag (u "tr") []; StartTag (u "td") []; Data (u "B");
                EndTag (u "td"); EndTag (u "tr") ];
            Text (u "C") ];
        Cell true [] [ Text (u "D") ] ] ].

(** An outer table of two rows: a row without cells, and a row of one cell
    holding text and a nested table of one row and one cell. *)
Definition empty_row_example : list table_item :=
  [ Row [] [];
    Row []
      [ Cell false []
          [ Text (u "A");
            NestedTable []
              [ StartTag (u "tr") []; StartTag (u "td") []; Data (u "B");
                EndTag (u "td"); EndTag (u "tr") ] ] ] ].

(** ** Trimmed and separated text *)

(** Neither the first nor the last character is whitespace. *)
Definition is_stripped (s : str) : bool :=
  match s with
  | [] => true
  | c :: rest => negb (isspace c) && negb (isspace (List.last rest c))
  end.

(** Every separator character (one satisfying [p]) is [sep] and is
    followed by a character that is no separator. *)
Fixpoint single_separators (p : char → bool) (sep : char) (s : str) : bool :=
  match s with
  | [] => true
  | c :: rest =>
      (if p c then
         (c =? sep) && match rest with d :: _ => negb (p d) | [] => false end
       else true)
      && single_separators p sep rest
  end.

(** ... and the text does not start with a separator. *)
Definition separated (p : char → bool) (sep : char) (s : str) : bool :=
  match s with [] => true | c :: _ => negb (p c) end && single_separators p sep s.

(** ** Accepted rows *)

(** The conditions under which [row_to_entry] builds a record, read off
    its [return None] guards. *)
Definition acceptable {U : UnicodeData} (row : list str) : bool :=
  match detect_shape (map clean row) with
  | None => false
  | Some (c0, _, prediction, _) =>
      negb (existsb (λ h, contains h (lower c0)) HEADER_WORDS)
      && nonempty c0
      && match search_year None c0 with
         | Some token =>
             match py_int token with
             | Returned y => (y <? 2026)%Z
             | _ => false
             end
         | None => false
         end
      && (15 <=? length prediction)%nat
  end.

(** The character before a position: the last one of the text [before]
    it, or [prev] when that text is empty. *)
Definition before_char (prev : option char) (before : str) : option char :=
  match last before with
  | Some c => Some c
  | None => prev
  end.

(** ** Pages of several tables *)

(** A page: tables one after the other, with text and other tags between
    them. *)
Inductive page_item :=
  | PageTable (a : attrs) (t : list table_item)
  | PageFiller (e : event).

Definition page_item_ok (x : page_item) : bool :=
  match x with
  | PageTable _ t => forallb table_item_ok t
  | PageFiller e => is_filler e
  end.

Definition render_page_item (x : page_item) : list event :=
  match x with
  | PageTable a t => render_table a t
  | PageFiller e => [e]
  end.

Definition render_page (page : list page_item) : list event :=
  flat_map render_page_item page.

Definition page_tables (page : list page_item) : list table :=
  flat_map (λ x, match x with PageTable _ t => [kept_rows t] | PageFiller _ => [] end) page.

(** The numbers of opening and of closing [table] tags of a markup. *)
Definition is_table_start (e : event) : bool :=
  match e with StartTag tag _ => is_tag "table" tag | _ => false end.

Definition is_table_end (e : event) : bool :=
  match e with EndTag tag => is_tag "table" tag | _ => false end.

Definition table_starts (markup : list event) : nat :=
  length (List.filter is_table_start markup).

Definition table_ends (markup : list event) : nat :=
  length (List.filter is_table_end markup).

(** No opening [table] tag of [markup] brings the nesting depth to 1,
    [depth] being the depth at its start. *)
Fixpoint stays_closed (depth : Z) (markup : list event) : bool :=
  match markup with
  | [] => true
  | StartTag tag _ :: rest =>
      if is_tag "table" tag then negb (depth + 1 =? 1)%Z && stays_closed (depth + 1) rest
      else stays_closed depth rest
  | EndTag tag :: rest =>
      if is_tag "table" tag then stays_closed (depth - 1) rest else stays_closed depth rest
  | Data _ :: rest => stays_closed depth rest
  end.

(** ** Rows as the parser stores them *)

(** A row with a cell at least, whose cells are trimmed. *)
Definition stripped_row (row : list str) : bool := forallb is_stripped row.

Definition filled_row (row : list str) : bool :=
  match row with [] => false | _ :: _ => true end && stripped_row row.

Definition filled_table (t : table) : bool := forallb filled_row t.

Definition parser_rows_ok (p : TableParser) : bool :=
  forallb filled_table (tables p)
  && from_option filled_table true (_current_table p)
  && from_option stripped_row true (_current_row p).

(** The tables a parser has collected or is collecting. *)
Definition tables_begun (p : TableParser) : nat :=
  (length (tables p) + match _current_table p with Some _ => 1 | None => 0 end)%nat.

(** ** The rows a run meets *)

Section RunNotions.
Context {U : UnicodeData}.
Variable fetch : str → option (list event).
Variable limit : Z.

(** The rows of the tables of a page, in the order of the loops, each
    with the hint [row_to_entry] is called with. *)
Definition page_rows (title hint : str) (tabs : list table) : list (list str * str) :=
  map (λ row, (row, hint ++ u " " ++ title)) (concat tabs).

Definition fetched_rows (targets : list (str * str)) : list (list str * str) :=
  flat_map (λ th, match fetch th.1 with
                  | Some html => page_rows th.1 th.2 (extract_tables html)
                  | None => []
                  end) targets.

(** The rows of the first table of the first page that could be fetched. *)
Fixpoint first_table_rows (targets : list (str * str)) : list (list str * str) :=
  match targets with
  | [] => []
  | (title, hint) :: rest =>
      match fetch title with
      | None => first_table_rows rest
      | Some html => page_rows title hint (take 1 (extract_tables html))
      end
  end.

Definition acceptable_rows (rows : list (list str * str)) : list (list str * str) :=
  List.filter (λ rh, acceptable rh.1) rows.

(** [e] is the record of the row [rh.1] under the hint [rh.2], for some
    set of known ids. *)
Definition accepted_from (e : entry) (rh : list str * str) : Prop :=
  ∃ ids, row_to_entry rh.1 rh.2 ids = Returned (Some e).

(** The first [limit] elements, all of them when [limit] is 0. *)
Definition capped {A} (l : list A) : list A :=
  if (limit =? 0)%Z then l else take (Z.to_nat limit) l.

(** From [st] to [st'] the run accepted the rows of a prefix of the
    acceptable rows of [rows], in order, and it stopped before the end
    only with the limit reached. *)
Definition accepted_prefix (st st' : run_state) (rows : list (list str * str)) : Prop :=
  ∃ es A' A'',
    new_entries st' = new_entries st ++ es ∧
    acceptable_rows rows = A' ++ A'' ∧
    Forall2 accepted_from es A' ∧
    ((limit_reached limit st' = true ∧ Z.of_nat (length (new_entries st')) = limit)
     ∨ (limit_reached limit st' = false ∧ A'' = [])).

End RunNotions.

(** ** The curator file *)

Definition no_linebreak (s : str) : bool := forallb (λ c, negb (is_linebreak c)) s.

Definition no_bar (s : str) : bool := forallb (λ c, negb (c =? chr "|")) s.

(** What holds of every target read from a curator file. *)
Definition parsed_target_ok (t : str * str) : bool :=
  is_stripped t.1 && no_linebreak t.1 && no_bar t.1 && negb (starts_with (u "#") t.1)
  && is_stripped t.2 && no_linebreak t.2.

(** A target that can be written to a curator file. *)
Definition target_ok (t : str * str) : bool := nonempty t.1 && parsed_target_ok t.

(** The line of a target, in the format of the docstring of
    [parse_curator], and the file of a list of targets. *)
Definition format_target (t : str * str) : str :=
  if nonempty t.2 then t.1 ++ u " | " ++ t.2 else t.1.

Definition format_curator (targets : list (str * str)) : str :=
  join [0x0A] (map format_target targets).

(** ** Ids made unique *)

(** [i] is what the collision loop makes of [base] against the ids
    [known]: the base itself when it is not known, and otherwise the base
    with the least suffix [-1], [-2], ... that is not known. *)
Definition id_made_unique (known : gset str) (base i : str) : Prop :=
  (i ∉ known) ∧
  (((base ∉ known) ∧ i = base) ∨
   (base ∈ known ∧
    ∃ k, (1 ≤ k)%Z ∧ i = candidate base k ∧
         ∀ j, (1 ≤ j < k)%Z → candidate base j ∈ known)).

(** [e] is the record [row_to_entry] makes of the row [rh.1] under the
    hint [rh.2] with the ids [known]; its id is the slug of its claimant,
    prediction and year, made unique against [known]. *)
Definition classified_against {U : UnicodeData} (known : gset str)
    (rh : list str * str) (e : entry) : Prop :=
  row_to_entry rh.1 rh.2 known = Returned (Some e) ∧
  ∃ first_cell claimant prediction outcome,
    detect_shape (map clean rh.1) = Some (first_cell, claimant, prediction, outcome) ∧
    id_made_unique known
      (slugify (claimant ++ u "-" ++ take 20 prediction) (PyInt (e_year e))) (e_id e).

(** The records [es] are those of the rows [rows], one for one and in
    order, each classified against [known] and the ids of the records
    before it. *)
Fixpoint accepted_chain {U : UnicodeData} (known : gset str) (es : list entry)
    (rows : list (list str * str)) : Prop :=
  match es, rows with
  | [], [] => True
  | e :: es', rh :: rows' =>
      classified_against known rh e ∧ accepted_chain (known ∪ {[ e_id e ]}) es' rows'
  | _, _ => False
  end.

(** From [st] to [st'] the run accepted [es], the records of a prefix of
    the acceptable rows of [rows], each classified against the ids known
    when its row came up; the known ids grew by theirs; and the run
    stopped before the end of [rows] only with the limit reached. *)
Definition run_extends {U : UnicodeData} (limit : Z) (st st' : run_state)
    (rows : list (list str * str)) : Prop :=
  ∃ es A' A'',
    new_entries st' = new_entries st ++ es ∧
    existing_ids st' = existing_ids st ∪ list_to_set (map e_id es) ∧
    acceptable_rows rows = A' ++ A'' ∧
    accepted_chain (existing_ids st ∪ list_to_set (map e_id (new_entries st))) es A' ∧
    (A'' = [] ∨ limit_reached limit st' = true).

(** ** A page and a curator list for concrete runs *)

Definition batra_page : list event :=
  render_page
    [ PageFiller (Data (u "Predictions"));
      PageTable [] [Row [] (map (λ c, Cell false [] [Text c]) batra_row)] ].

Definition fetch_batra (title : str) : option (list event) :=
  if bool_decide (title = u "Ravi_Batra") then Some batra_page else None.

Definition batra_targets : list (str * str) :=
  [ (u "Missing_page", []); (u "Ravi_Batra", u "economy") ].

(** ** A character database for concrete runs

    It knows nothing above U+007F; the concrete inputs below are ASCII,
    on which every database agrees. *)

Definition ascii_only : UnicodeData :=
  {| uni_decimal := λ _, false; uni_alnum := λ _, false; uni_lower := λ _ c _, [c] |}.

(** * Properties *)

(** ** Text *)

Lemma chr_inj a b : chr a = chr b → a = b.
Proof.
  unfold chr. intros E.
  rewrite <- (ascii_N_embedding a), <- (ascii_N_embedding b). by rewrite E.
Qed.

Lemma u_inj s t : u s = u t → s = t.
Proof.
  unfold u. intros E.
  rewrite <- (string_of_list_ascii_of_string s), <- (string_of_list_ascii_of_string t).
  f_equal. revert E. generalize (list_ascii_of_string s) (list_ascii_of_string t).
  induction l as [|a l IH]; intros [|b l']; simpl; intros E; try discriminate; auto.
  injection E as E1 E2. f_equal; [by apply chr_inj | by apply IH].
Qed.

Lemma str_of_int_inj a b : str_of_int a = str_of_int b → a = b.
Proof.
  unfold str_of_int. intros E%u_inj.
  apply DecimalZ.to_int_inj.
  assert (N : ∀ z, NilZero.int_of_string (NilZero.string_of_int (Z.to_int z))
                   = Some (Z.to_int z)).
  { intros z. apply NilZero.isi; destruct z; simpl; try discriminate;
      intros [= E']; by apply DecimalPos.Unsigned.to_uint_nonnil in E'. }
  assert (E' := f_equal NilZero.int_of_string E).
  rewrite !N in E'. congruence.
Qed.

Lemma candidate_inj base j k : candidate base j = candidate base k → j = k.
Proof.
  unfold candidate. intros E. apply app_inv_head in E. apply app_inv_head in E.
  by apply str_of_int_inj.
Qed.

Lemma candidate_ne_base base k : candidate base k ≠ base.
Proof.
  unfold candidate. intros E. apply (f_equal length) in E.
  rewrite !length_app in E. simpl in E. lia.
Qed.

Ltac bool_props :=
  repeat match goal with
  | H : _ && _ = true |- _ => apply andb_true_iff in H as [? ?]
  | H : _ || _ = true |- _ => apply orb_true_iff in H as [?|?]
  | H : (_ =? _) = true |- _ => apply N.eqb_eq in H
  | H : (_ <=? _) = true |- _ => apply N.leb_le in H
  | H : (_ <? _) = true |- _ => apply N.ltb_lt in H
  | H : negb _ = true |- _ => apply negb_true_iff in H
  | H : negb _ = false |- _ => apply negb_false_iff in H
  end.

(** Replace character literals by their code points. *)
Ltac chr_consts :=
  repeat match goal with
  | |- context [chr ?a] =>
      let v := eval vm_compute in (chr a) in change (chr a) with v
  | H : context [chr ?a] |- _ =>
      let v := eval vm_compute in (chr a) in change (chr a) with v in H
  end.

(** ** The collision loop *)

Lemma unique_id_mono fuel : ∀ fuel' ids base cur k r,
  unique_id fuel ids base cur k = Returned r → (fuel ≤ fuel')%nat →
  unique_id fuel' ids base cur k = Returned r.
Proof.
  induction fuel as [|fuel IH]; intros fuel' ids base cur k r; simpl.
  - destruct fuel'; simpl; destruct (decide (cur ∈ ids)); try discriminate; auto.
  - intros E Hle. destruct fuel' as [|fuel']; [lia|]. simpl.
    destruct (decide (cur ∈ ids)); auto. apply IH; [done | lia].
Qed.

(** The loop on a set [pending] of the known ids it may still run into:
    each round that does not stop removes one. *)
Lemma unique_id_loop fuel : ∀ (pending ids : gset str) base cur counter,
  (size pending ≤ fuel)%nat →
  (cur ∈ ids → cur ∈ pending) →
  (∀ k, (counter ≤ k)%Z → candidate base k ∈ ids → candidate base k ∈ pending) →
  (∀ k, (counter ≤ k)%Z → candidate base k ≠ cur) →
  ∃ r, unique_id fuel ids base cur counter = Returned r ∧ (r ∉ ids) ∧
       (((cur ∉ ids) ∧ r = cur) ∨
        (cur ∈ ids ∧ (∃ k, (counter ≤ k)%Z ∧ r = candidate base k ∧
                      (∀ j, (counter ≤ j < k)%Z → candidate base j ∈ ids)))).
Proof.
  induction fuel as [|fuel IH]; intros pending ids base cur counter Hsize Hcur Hcand Hne;
    simpl; destruct (decide (cur ∈ ids)) as [Hin|Hout]; eauto 6.
  - apply Hcur in Hin. apply Nat.le_0_r, size_empty_inv in Hsize.
    by apply Hsize in Hin.
  - destruct (IH (pending ∖ {[cur]}) ids base (candidate base counter) (counter + 1)%Z)
      as (r & Er & Hr & Hcase).
    + assert (size (pending ∖ {[cur]}) = size pending - 1)%nat as ->; [|lia].
      rewrite size_difference by (by apply singleton_subseteq_l, Hcur).
      by rewrite size_singleton.
    + intros H. apply elem_of_difference. split; [apply Hcand; [lia | done]|].
      rewrite elem_of_singleton. apply Hne. lia.
    + intros k Hk H. apply elem_of_difference. split; [apply Hcand; [lia | done]|].
      rewrite elem_of_singleton. apply Hne. lia.
    + intros k Hk E%candidate_inj. lia.
    + exists r. split; [done|]. split; [done|]. right. split; [done|].
      destruct Hcase as [[Hfree ->]|(Htaken & k & Hk & -> & Hbelow)].
      * exists counter. split; [lia|]. split; [done|]. intros j Hj. lia.
      * exists k. split; [lia|]. split; [done|]. intros j Hj.
        destruct (decide (j = counter)) as [->|]; [done|]. apply Hbelow. lia.
Qed.

Lemma unique_id_enough fuel ids base :
  (size ids ≤ fuel)%nat →
  ∃ r, unique_id fuel ids base base 1 = Returned r ∧ (r ∉ ids) ∧
       (((base ∉ ids) ∧ r = base) ∨
        (base ∈ ids ∧ (∃ k, (1 ≤ k)%Z ∧ r = candidate base k ∧
                       (∀ j, (1 ≤ j < k)%Z → candidate base j ∈ ids)))).
Proof.
  intros Hsize. apply (unique_id_loop fuel ids); auto.
  intros k _. apply candidate_ne_base.
Qed.

(** ** The category guesser *)

Lemma dict_get_mid (done rest : list (str * Z)) k v :
  k ∉ map fst done → dict_get (done ++ (k, v) :: rest) k = Returned v.
Proof.
  induction done as [|[k' v'] done IH]; simpl; intros Hk.
  - by rewrite decide_True.
  - apply not_elem_of_cons in Hk as [Hk Hk']. rewrite decide_False by done. by apply IH.
Qed.

Lemma dict_set_mid (done rest : list (str * Z)) k v w :
  k ∉ map fst done → dict_set (done ++ (k, v) :: rest) k w = done ++ (k, w) :: rest.
Proof.
  induction done as [|[k' v'] done IH]; simpl; intros Hk.
  - by rewrite decide_True.
  - apply not_elem_of_cons in Hk as [Hk Hk']. rewrite decide_False by done.
    f_equal. by apply IH.
Qed.

Lemma score_keywords_spec text cat keywords : ∀ (done rest : list (str * Z)) v,
  cat ∉ map fst done →
  score_keywords text cat keywords (done ++ (cat, v) :: rest)
  = Returned (done ++ (cat, v + hits_in text keywords)%Z :: rest).
Proof.
  unfold hits_in.
  induction keywords as [|kw keywords IH]; intros done rest v Hk; simpl.
  - by rewrite Z.add_0_r.
  - rewrite filter_cons. destruct (contains kw text) eqn:E.
    + rewrite dict_get_mid by done. simpl. rewrite dict_set_mid by done.
      rewrite IH by done. simpl length.
      by replace (v + 1 + Z.of_nat (length (filter (λ kw, contains kw text = true) keywords)))%Z
        with (v + Z.of_nat (S (length (filter (λ kw, contains kw text = true) keywords))))%Z
        by lia.
    + by apply IH.
Qed.

Lemma score_all_spec text items : ∀ done : list (str * Z),
  NoDup (map fst items) →
  (∀ k, k ∈ map fst done → k ∉ map fst items) →
  score_all text items (done ++ map (λ it, (fst it, 0%Z)) items)
  = Returned (done ++ map (λ it, (fst it, hits_in text (snd it))) items).
Proof.
  induction items as [|[cat keywords] items IH]; intros done Hnd Hdisj.
  - done.
  - rewrite map_cons in Hnd. apply NoDup_cons in Hnd as [Hcat Hnd].
    cbn [score_all map fst snd].
    rewrite score_keywords_spec; cycle 1.
    { intros H. apply Hdisj in H. apply H. rewrite map_cons. apply list_elem_of_here. }
    cbn [mbind result_bind]. rewrite Z.add_0_l.
    pose proof (IH (done ++ [(cat, hits_in text keywords)]) Hnd) as IH'.
    rewrite <- !app_assoc in IH'. apply IH'.
    intros k Hk. rewrite map_app in Hk. apply elem_of_app in Hk as [Hk|Hk].
    + apply Hdisj in Hk. rewrite map_cons in Hk. intros H. apply Hk.
      by apply list_elem_of_further.
    + apply list_elem_of_singleton in Hk as ->. done.
Qed.

(** [max_from] keeps the first of the largest values: the items before it
    are strictly smaller, those after it are not larger. *)
Lemma max_from_spec items : ∀ (seen_before seen_after : list (str * Z)) best,
  Forall (λ it, (snd it < snd best)%Z) seen_before →
  Forall (λ it, (snd it ≤ snd best)%Z) seen_after →
  ∃ before after v,
    seen_before ++ best :: seen_after ++ items
    = before ++ (max_from best items, v) :: after ∧
    Forall (λ it, (snd it < v)%Z) before ∧ Forall (λ it, (snd it ≤ v)%Z) after.
Proof.
  induction items as [|[k v] items IH]; intros seen_before seen_after best Hb Ha.
  - exists seen_before, seen_after, (snd best). rewrite app_nil_r.
    destruct best; simpl; auto.
  - cbn [max_from snd]. destruct (Z.ltb_spec (snd best) v) as [Hlt|Hge].
    + destruct (IH (seen_before ++ best :: seen_after) [] (k, v)) as (b & a & w & E & Hb' & Ha').
      * apply Forall_app. split; [|constructor].
        -- eapply Forall_impl; [exact Hb|]. simpl. intros; lia.
        -- done.
        -- eapply Forall_impl; [exact Ha|]. simpl. intros; lia.
      * constructor.
      * exists b, a, w. split; [|done]. rewrite <- E. by rewrite <- app_assoc.
    + destruct (IH seen_before (seen_after ++ [(k, v)]) best) as (b & a & w & E & Hb' & Ha').
      * done.
      * apply Forall_app. split; [done|]. constructor; [simpl; lia | constructor].
      * exists b, a, w. split; [|done]. rewrite <- E. by rewrite <- app_assoc.
Qed.

Lemma max_key_spec (scores : list (str * Z)) :
  scores ≠ [] →
  ∃ best before after v,
    max_key scores = Returned best ∧ scores = before ++ (best, v) :: after ∧
    Forall (λ it, (snd it < v)%Z) before ∧ Forall (λ it, (snd it ≤ v)%Z) after.
Proof.
  destruct scores as [|first rest]; [done|]. intros _.
  destruct (max_from_spec rest [] [] first) as (b & a & v & E & Hb & Ha); [constructor..|].
  exists (max_from first rest), b, a, v. auto.
Qed.

Lemma category_keys : map fst CATEGORY_KEYWORDS = VALID_CATEGORIES.
Proof. reflexivity. Qed.

Lemma category_keys_NoDup : NoDup VALID_CATEGORIES.
Proof. apply (bool_decide_unpack _). by vm_compute. Qed.

Lemma category_table :
  CATEGORY_KEYWORDS = map (λ cat, (cat, keywords_of cat)) VALID_CATEGORIES.
Proof. vm_compute. reflexivity. Qed.

Section Guesser.
Context {U : UnicodeData}.

Lemma score_all_categories (text : str) :
  score_all (lower text) CATEGORY_KEYWORDS (map (λ cat, (cat, 0%Z)) VALID_CATEGORIES)
  = Returned (map (λ cat, (cat, score text cat)) VALID_CATEGORIES).
Proof.
  pose proof (score_all_spec (lower text) CATEGORY_KEYWORDS []) as E.
  rewrite category_keys in E. specialize (E category_keys_NoDup).
  rewrite !app_nil_l in E.
  replace (map (λ it : str * list str, (fst it, 0%Z)) CATEGORY_KEYWORDS)
    with (map (λ cat : str, (cat, 0%Z)) VALID_CATEGORIES) in E by reflexivity.
  rewrite E; [|intros k Hk; inversion Hk].
  rewrite category_table at 1. by rewrite map_map.
Qed.

(** What [guess_category] returns: the first-listed category of largest
    score, or the default when that score is zero. *)
Lemma guess_category_first_max (text : str) :
  ∃ winner before after,
    VALID_CATEGORIES = before ++ winner :: after ∧
    Forall (λ c, (score text c < score text winner)%Z) before ∧
    Forall (λ c, (score text c ≤ score text winner)%Z) after ∧
    guess_category text
    = Returned (if (0 <? score text winner)%Z then winner else default_category).
Proof.
  unfold guess_category. rewrite score_all_categories. cbn [mbind result_bind].
  set (f := λ cat : str, (cat, score text cat)).
  destruct (max_key_spec (map f VALID_CATEGORIES)) as (best & b & a & v & Emax & E & Hb & Ha);
    [discriminate|].
  rewrite Emax. cbn [mbind result_bind].
  pose proof category_keys_NoDup as Hnd.
  apply map_eq_app in E as (b' & rest & EV & <- & E).
  apply map_eq_cons in E as (w & a' & -> & Ew & <-).
  unfold f in Ew. injection Ew as -> <-.
  rewrite EV in Hnd. apply NoDup_app in Hnd as (_ & Hnd & _).
  rewrite EV, map_app, map_cons. unfold f at 2. rewrite dict_get_mid; cycle 1.
  { intros Hin. rewrite map_map in Hin. simpl in Hin. rewrite map_id in Hin.
    apply (Hnd _ Hin). apply list_elem_of_here. }
  cbn [mbind result_bind mret result_ret].
  exists best, b', a'. rewrite <- EV. repeat split; try done.
  - by apply (Forall_map f (λ it, (snd it < score text best)%Z)) in Hb.
  - by apply (Forall_map f (λ it, (snd it ≤ score text best)%Z)) in Ha.
Qed.

End Guesser.

(** ** The row classifier *)

Section Classifier.
Context {U : UnicodeData}.

Lemma row_to_entry_fuel_short fuel (row : list str) hint ids :
  (length row < 3)%nat → row_to_entry_fuel fuel row hint ids = Returned None.
Proof.
  intros H. unfold row_to_entry_fuel.
  by destruct (Nat.ltb_spec (length row) 3); [|lia].
Qed.

Lemma row_to_entry_fuel_3 fuel (a b c : str) hint ids :
  row_to_entry_fuel fuel [a; b; c] hint ids
  = finish_entry fuel ids hint (clean a) (clean b) (clean b) (clean c).
Proof.
  unfold row_to_entry_fuel, finish_entry. cbn [length map Nat.ltb Nat.leb getitem lookup list_lookup mbind result_bind].
  repeat case_match; try reflexivity.
Qed.

Lemma row_to_entry_fuel_4 fuel (a b c d : str) rest hint ids :
  row_to_entry_fuel fuel (a :: b :: c :: d :: rest) hint ids
  = finish_entry fuel ids hint (clean a) (clean b) (clean c) (clean d).
Proof.
  unfold row_to_entry_fuel, finish_entry. cbn [length map Nat.ltb Nat.leb getitem lookup list_lookup mbind result_bind].
  repeat case_match; try reflexivity.
Qed.

Lemma pat_year_token prev (s g : str) :
  pat_year prev s = Some g → is_year_token g = true ∧ ∃ after, s = g ++ after.
Proof.
  unfold pat_year. destruct (at_boundary prev s); [|discriminate].
  destruct s as [|c1 [|c2 [|c3 [|c4 rest]]]]; try discriminate.
  destruct (_ && at_boundary _ rest) eqn:E; [|discriminate].
  intros [= <-]. apply andb_true_iff in E as [E _].
  split; [exact E | by exists rest].
Qed.

Lemma search_year_token (s : str) : ∀ prev g,
  search_year prev s = Some g →
  is_year_token g = true ∧ ∃ before after, s = before ++ g ++ after.
Proof.
  induction s as [|c s IH]; intros prev g; cbn [search_year];
    destruct (pat_year prev _) as [g'|] eqn:E; try discriminate.
  - intros [= <-]. apply pat_year_token in E as [? [after ->]]. split; [done|].
    by exists [], after.
  - intros [= <-]. apply pat_year_token in E as [? [after ->]]. split; [done|].
    by exists [], after.
  - intros [? (before & after & ->)]%IH. split; [done|].
    by exists (c :: before), after.
Qed.

Lemma is_digit09_value c : is_digit09 c = true → (0 ≤ digit_value c ≤ 9)%Z.
Proof.
  unfold is_digit09, in_range, digit_value. chr_consts.
  rewrite andb_true_iff, !N.leb_le. lia.
Qed.

Lemma year_token_int (g : str) :
  is_year_token g = true →
  ∃ y, py_int g = Returned y ∧ ((1000 ≤ y ≤ 1999)%Z ∨ (2000 ≤ y ≤ 2029)%Z).
Proof.
  destruct g as [|c1 [|c2 [|c3 [|c4 [|]]]]]; try discriminate.
  unfold py_int. cbn [is_year_token forallb fold_left].
  unfold is_digit09, in_range, digit_value. chr_consts. intros H.
  assert (48 ≤ c1 ≤ 57 ∧ 48 ≤ c2 ≤ 57 ∧ 48 ≤ c3 ≤ 57 ∧ 48 ≤ c4 ≤ 57
          ∧ (c1 = 49 ∨ c1 = 50 ∧ c2 = 48 ∧ c3 ≤ 50)) as (H1 & H2 & H3 & H4 & Hy).
  { bool_props; subst; lia. }
  assert (((48 <=? c1) && (c1 <=? 57)) && (((48 <=? c2) && (c2 <=? 57))
          && (((48 <=? c3) && (c3 <=? 57)) && (((48 <=? c4) && (c4 <=? 57)) && true)))
          = true) as ->.
  { rewrite !andb_true_iff, !N.leb_le. lia. }
  eexists. split; [reflexivity|]. lia.
Qed.

Lemma finish_entry_returns fuel ids hint c0 claimant prediction outcome :
  (size ids ≤ fuel)%nat →
  ∃ r, finish_entry fuel ids hint c0 claimant prediction outcome = Returned r.
Proof.
  intros Hfuel. unfold finish_entry.
  destruct (existsb _ _); [eauto|]. destruct (negb (nonempty c0)); [eauto|].
  destruct (search_year None c0) as [g|] eqn:Eg; [|eauto].
  apply search_year_token in Eg as [(y & -> & _)%year_token_int _].
  cbn [mbind result_bind]. destruct (2026 <=? y)%Z; [eauto|].
  destruct (_ || _); [eauto|].
  destruct (unique_id_enough fuel ids
              (slugify (claimant ++ u "-" ++ take 20 prediction) (PyInt y)) Hfuel)
    as (i & -> & _).
  cbn [mbind result_bind].
  destruct (guess_category_first_max (prediction ++ u " " ++ outcome ++ u " " ++ hint))
    as (w & _ & _ & _ & _ & _ & ->).
  cbn [mbind result_bind]. eauto.
Qed.

Lemma finish_entry_mono fuel fuel' ids hint c0 claimant prediction outcome r :
  finish_entry fuel ids hint c0 claimant prediction outcome = Returned r →
  (fuel ≤ fuel')%nat →
  finish_entry fuel' ids hint c0 claimant prediction outcome = Returned r.
Proof.
  unfold finish_entry. intros E Hle.
  destruct (existsb _ _); [done|]. destruct (negb (nonempty c0)); [done|].
  destruct (search_year None c0) as [g|]; [|done].
  destruct (py_int g) as [y| |]; try done. cbn [mbind result_bind] in *.
  destruct (2026 <=? y)%Z; [done|]. destruct (_ || _); [done|].
  destruct (unique_id fuel _ _ _ _) as [i| |] eqn:Ei; try done.
  by rewrite (unique_id_mono _ _ _ _ _ _ _ Ei Hle).
Qed.

(** What an accepted record was built from. *)
Lemma finish_entry_Some fuel ids hint c0 claimant prediction outcome e :
  finish_entry fuel ids hint c0 claimant prediction outcome = Returned (Some e) →
  ∃ group1,
    search_year None c0 = Some group1 ∧
    py_int group1 = Returned (e_year e) ∧
    (e_year e < 2026)%Z ∧
    (15 ≤ length prediction)%nat ∧
    (let base_id := slugify (claimant ++ u "-" ++ take 20 prediction) (PyInt (e_year e)) in
     unique_id fuel ids base_id base_id 1 = Returned (e_id e)) ∧
    guess_category (prediction ++ u " " ++ outcome ++ u " " ++ hint)
    = Returned (e_category e) ∧
    e_prediction e = prediction ∧
    e_source e = (if nonempty claimant && negb (bool_decide (claimant = prediction))
                  then claimant else u "Unknown") ∧
    e_reality e = (if nonempty outcome && (20 <? length outcome)%nat
                      && negb (bool_decide (lower outcome ∈ LOW_INFORMATION))
                   then outcome else synthesized (e_year e)).
Proof.
  unfold finish_entry. intros E.
  destruct (existsb _ _); [done|]. destruct (negb (nonempty c0)); [done|].
  destruct (search_year None c0) as [g|]; [|done].
  destruct (py_int g) as [y| |] eqn:Ey; try done. cbn [mbind result_bind] in E.
  destruct (Z.leb_spec 2026 y); [done|].
  destruct (negb (nonempty prediction)) eqn:E1; [done|].
  destruct (Nat.ltb_spec (length prediction) 15); [done|]. cbn [orb] in E.
  destruct (unique_id fuel _ _ _ _) as [i| |] eqn:Ei; try done.
  cbn [mbind result_bind] in E.
  destruct (guess_category _) as [cat| |] eqn:Ec; try done.
  cbn [mbind result_bind] in E. injection E as <-. cbn.
  exists g. repeat split; try done.
Qed.

Lemma finish_entry_accepts fuel ids hint c0 claimant prediction outcome group1 year i cat :
  existsb (λ h, contains h (lower c0)) HEADER_WORDS = false →
  nonempty c0 = true →
  search_year None c0 = Some group1 →
  py_int group1 = Returned year →
  (2026 <=? year)%Z = false →
  (length prediction <? 15)%nat = false →
  unique_id fuel ids (slugify (claimant ++ u "-" ++ take 20 prediction) (PyInt year))
    (slugify (claimant ++ u "-" ++ take 20 prediction) (PyInt year)) 1 = Returned i →
  guess_category (prediction ++ u " " ++ outcome ++ u " " ++ hint) = Returned cat →
  finish_entry fuel ids hint c0 claimant prediction outcome
  = Returned (Some {|
      e_id := i;
      e_year := year;
      e_prediction := prediction;
      e_source := if nonempty claimant && negb (bool_decide (claimant = prediction))
                  then claimant else u "Unknown";
      e_reality := if nonempty outcome && (20 <? length outcome)%nat
                      && negb (bool_decide (lower outcome ∈ LOW_INFORMATION))
                   then outcome else synthesized year;
      e_category := cat;
      e_tags := [];
      e_harvested := true |}).
Proof.
  intros H1 H2 H3 H4 H5 H6 H7 H8. unfold finish_entry.
  rewrite H1, H2, H3, H4. cbn [negb mbind result_bind]. rewrite H5, H6.
  destruct prediction; [discriminate|]. cbn [nonempty negb orb].
  rewrite H7. cbn [mbind result_bind]. rewrite H8. reflexivity.
Qed.

Lemma row_to_entry_fuel_shape fuel (row : list str) hint ids :
  row_to_entry_fuel fuel row hint ids
  = match detect_shape (map clean row) with
    | Some (c0, claimant, prediction, outcome) =>
        finish_entry fuel ids hint c0 claimant prediction outcome
    | None => Returned None
    end.
Proof.
  destruct row as [|a [|b [|c [|d rest]]]];
    try (apply row_to_entry_fuel_short; simpl; lia).
  - apply row_to_entry_fuel_3.
  - apply row_to_entry_fuel_4.
Qed.

Lemma row_to_entry_returns (row : list str) hint ids :
  ∃ r, ∀ fuel, (size ids ≤ fuel)%nat → row_to_entry_fuel fuel row hint ids = Returned r.
Proof.
  destruct (detect_shape (map clean row)) as [[[[c0 cl] pr] out]|] eqn:E.
  - destruct (finish_entry_returns (size ids) ids hint c0 cl pr out) as [r Er]; [done|].
    exists r. intros fuel Hfuel. rewrite row_to_entry_fuel_shape, E.
    by apply (finish_entry_mono (size ids)).
  - exists None. intros fuel _. by rewrite row_to_entry_fuel_shape, E.
Qed.

Lemma row_to_entry_Some (row : list str) hint ids e :
  row_to_entry row hint ids = Returned (Some e) →
  ∃ c0 claimant prediction outcome,
    detect_shape (map clean row) = Some (c0, claimant, prediction, outcome) ∧
    finish_entry (S (size ids)) ids hint c0 claimant prediction outcome
    = Returned (Some e).
Proof.
  unfold row_to_entry. rewrite row_to_entry_fuel_shape.
  destruct (detect_shape _) as [[[[c0 cl] pr] out]|]; [|discriminate].
  intros E. by exists c0, cl, pr, out.
Qed.

(** The id of an accepted record is not a known id. *)
Lemma row_to_entry_fresh (row : list str) hint ids e :
  row_to_entry row hint ids = Returned (Some e) → e_id e ∉ ids.
Proof.
  intros (c0 & cl & pr & out & _ & E)%row_to_entry_Some.
  apply finish_entry_Some in E as (g & _ & _ & _ & _ & Eid & _). cbn zeta in Eid.
  destruct (unique_id_enough (S (size ids)) ids
    (slugify (cl ++ u "-" ++ take 20 pr) (PyInt (e_year e)))) as (r & Er & Hr & _); [lia|].
  congruence.
Qed.

Lemma finish_entry_late_year fuel ids hint c0 claimant prediction outcome token y :
  search_year None c0 = Some token → py_int token = Returned y → (2026 ≤ y)%Z →
  finish_entry fuel ids hint c0 claimant prediction outcome = Returned None.
Proof.
  intros Es Ey Hy. unfold finish_entry. rewrite Es, Ey.
  destruct (existsb _ _); [done|]. destruct (negb _); [done|].
  cbn [mbind result_bind]. by destruct (Z.leb_spec 2026 y); [|lia].
Qed.

(** C9.  For every row, hint and set of known ids, [row_to_entry] comes to
    an end and returns a record or [None]: no cell access is out of range,
    the year conversion never fails, and the collision loop stops (with
    any fuel from the number of known ids on, and with the same result). *)
Theorem row_to_entry_total (row : list str) (hint : str) (existing_ids : gset str) :
  ∃ r : option entry,
    row_to_entry row hint existing_ids = Returned r ∧
    (∀ fuel, (size existing_ids ≤ fuel)%nat →
             row_to_entry_fuel fuel row hint existing_ids = Returned r).
Proof.
  destruct (row_to_entry_returns row hint existing_ids) as [r Hr].
  exists r. split; [|exact Hr]. apply Hr. lia.
Qed.

(** C5.  The year of an accepted record is at least 1000 and below 2026;
    it is the value of a four-digit token of the first cleaned cell, in
    1000-1999 or 2000-2029; and a row whose year token is 2026 or more is
    rejected. *)
Theorem accepted_year_in_range (row : list str) (hint : str) (existing_ids : gset str) :
  (∀ e, row_to_entry row hint existing_ids = Returned (Some e) →
     (1000 ≤ e_year e < 2026)%Z ∧
     ∃ first_cell before token after,
       map clean row !! 0%nat = Some first_cell ∧
       first_cell = before ++ token ++ after ∧
       is_year_token token = true ∧
       py_int token = Returned (e_year e)) ∧
  (∀ first_cell token y,
     map clean row !! 0%nat = Some first_cell →
     search_year None first_cell = Some token →
     py_int token = Returned y → (2026 ≤ y)%Z →
     row_to_entry row hint existing_ids = Returned None).
Proof.
  split.
  - intros e (c0 & cl & pr & out & Eshape & E)%row_to_entry_Some.
    apply finish_entry_Some in E as (g & Eg & Ey & Hlt & _).
    destruct (search_year_token _ _ _ Eg) as [Htok (before & after & Ec0)].
    destruct (year_token_int _ Htok) as (y & Ey' & Hy).
    assert (y = e_year e) as -> by congruence.
    split; [lia|]. exists c0, before, g, after. repeat split; try done.
    destruct (map clean row) as [|? [|? [|? [|? ?]]]]; simpl in Eshape; by simplify_eq.
  - intros c0 token y Ec0 Es Ey Hy. unfold row_to_entry.
    rewrite row_to_entry_fuel_shape.
    destruct (detect_shape _) as [[[[c0' cl] pr] out]|] eqn:Eshape; [|done].
    assert (c0' = c0) as ->.
    { destruct (map clean row) as [|? [|? [|? [|? ?]]]]; simpl in *; by simplify_eq. }
    by eapply finish_entry_late_year.
Qed.

(** C8.  The reality of an accepted record is the cleaned outcome cell
    when that has more than 20 characters and its lower-case form is not a
    low-information token; otherwise it is the synthesized sentence, which
    names year + 5 for a year below 2020 and 2025 from 2020 on. *)
Theorem accepted_reality (row : list str) (hint : str) (existing_ids : gset str) (e : entry) :
  row_to_entry row hint existing_ids = Returned (Some e) →
  ∃ first_cell claimant prediction outcome,
    detect_shape (map clean row) = Some (first_cell, claimant, prediction, outcome) ∧
    e_reality e =
      if (20 <? length outcome)%nat && negb (bool_decide (lower outcome ∈ LOW_INFORMATION))
      then outcome
      else u "The predicted event did not occur as described by "
           ++ str_of_int (if (e_year e <? 2020)%Z then (e_year e + 5)%Z else 2025%Z)
           ++ u ".".
Proof.
  intros (c0 & cl & pr & out & Eshape & E)%row_to_entry_Some.
  apply finish_entry_Some in E as (g & _ & _ & _ & _ & _ & _ & _ & _ & ->).
  exists c0, cl, pr, out. split; [done|].
  destruct out; reflexivity.
Qed.

(** C1, as the code has it.  The scenario row is accepted, for any hint and no known
    id, with year 1999, source "Ravi Batra" and the prediction as given;
    its outcome text has 17 characters, which is not more than 20, so the
    reality is the synthesized sentence for 1999 + 5. *)
Theorem batra_row_accepted (hint : str) :
  ∃ e, row_to_entry batra_row hint ∅ = Returned (Some e) ∧
       e_year e = 1999%Z ∧
       e_source e = u "Ravi Batra" ∧
       e_prediction e = u "The US economy will collapse by 2000 due to debt" ∧
       e_reality e = u "The predicted event did not occur as described by 2004.".
Proof.
  destruct (guess_category_first_max
    (clean (u "The US economy will collapse by 2000 due to debt") ++ u " "
     ++ clean (u "It did not happen") ++ u " " ++ hint)) as (w & _ & _ & _ & _ & _ & Ecat).
  eexists. split.
  - unfold row_to_entry, batra_row. rewrite row_to_entry_fuel_4.
    eapply finish_entry_accepts; [vm_compute; reflexivity..|exact Ecat].
  - repeat split; vm_compute; reflexivity.
Qed.

End Classifier.

(** ** The loop of [main] *)

Section MainLoop.
Context {U : UnicodeData}.
Variable fetch : str → option (list event).
Variable limit : Z.
Variable db : list entry.

Lemma ids_distinct_init :
  ids_distinct db {| existing_ids := list_to_set (map e_id db); new_entries := [] |}.
Proof.
  split; simpl.
  - intros i Hi. by apply elem_of_list_to_set.
  - intros i Hi. inversion Hi.
  - intros i Hi. left. by apply elem_of_list_to_set in Hi.
  - constructor.
  - intros i Hi. inversion Hi.
Qed.

Lemma ids_distinct_accept st row hint e :
  ids_distinct db st →
  row_to_entry row hint (existing_ids st ∪ list_to_set (map e_id (new_entries st)))
  = Returned (Some e) →
  ids_distinct db {| existing_ids := existing_ids st ∪ {[ e_id e ]};
                  new_entries := new_entries st ++ [e] |}.
Proof.
  intros [H1 H2 H3 H4 H5] Hfresh%row_to_entry_fresh.
  apply not_elem_of_union in Hfresh as [Hfresh1 Hfresh2].
  split; simpl; rewrite ?map_app; simpl.
  - intros i Hi. apply elem_of_union. left. by apply H1.
  - intros i [Hi|Hi%list_elem_of_singleton]%elem_of_app; apply elem_of_union.
    + left. by apply H2.
    + right. by apply elem_of_singleton.
  - intros i [Hi|Hi%elem_of_singleton]%elem_of_union.
    + destruct (H3 i Hi); [by left | right; apply elem_of_app; by left].
    + right. apply elem_of_app. right. by apply list_elem_of_singleton.
  - apply NoDup_app. split; [done|]. split; [|apply NoDup_singleton].
    intros i Hi Hi'%list_elem_of_singleton. subst i. apply Hfresh1. by apply H2.
  - intros i [Hi|Hi%list_elem_of_singleton]%elem_of_app; [by apply H5|].
    subst i. intros Hi. apply Hfresh1. by apply H1.
Qed.

Lemma rows_loop_distinct hint title rows : ∀ st,
  ids_distinct db st →
  ∃ st', rows_loop limit hint title rows st = Returned st' ∧ ids_distinct db st'.
Proof.
  induction rows as [|row rows IH]; intros st Hst; cbn [rows_loop]; [eauto|].
  destruct (row_to_entry_returns row (hint ++ u " " ++ title)
              (existing_ids st ∪ list_to_set (map e_id (new_entries st))))
    as [r Hr].
  assert (Er : row_to_entry row (hint ++ u " " ++ title)
                 (existing_ids st ∪ list_to_set (map e_id (new_entries st))) = Returned r)
    by (apply Hr; lia).
  rewrite Er. cbn [mbind result_bind]. destruct r as [e|]; [|by apply IH].
  pose proof (ids_distinct_accept _ _ _ _ Hst Er) as Hst'.
  destruct (limit_reached _ _); [eauto | by apply IH].
Qed.

Lemma tables_loop_distinct hint title tabs : ∀ st,
  ids_distinct db st →
  ∃ st', tables_loop limit hint title tabs st = Returned st' ∧ ids_distinct db st'.
Proof.
  induction tabs as [|t tabs IH]; intros st Hst; cbn [tables_loop]; [eauto|].
  destruct (rows_loop_distinct hint title t st Hst) as (st1 & -> & Hst1).
  cbn [mbind result_bind]. destruct (limit_reached _ _); [eauto | by apply IH].
Qed.

Lemma targets_loop_distinct targets : ∀ st,
  ids_distinct db st →
  ∃ st', targets_loop fetch limit targets st = Returned st' ∧ ids_distinct db st'.
Proof.
  induction targets as [|[title hint] targets IH]; intros st Hst; cbn [targets_loop];
    [eauto|].
  destruct (fetch title) as [html|]; [|by apply IH].
  destruct (tables_loop_distinct hint title (extract_tables html) st Hst) as (st1 & -> & Hst1).
  cbn [mbind result_bind]. destruct (limit_reached _ _); [eauto | by apply IH].
Qed.

End MainLoop.

(** ** The table parser *)

Lemma feed_app p a b : feed p (a ++ b) = feed (feed p a) b.
Proof. apply fold_left_app. Qed.

Lemma feed_cons p e l : feed p (e :: l) = feed (handle p e) l.
Proof. reflexivity. Qed.

Lemma is_other_tag_inv e :
  is_other_tag e = true →
  ∃ tag, (e = EndTag tag ∨ ∃ a, e = StartTag tag a) ∧
         is_tag "table" tag = false ∧ is_tag "tr" tag = false ∧ is_cell_tag tag = false.
Proof.
  destruct e as [tag a|tag|s]; simpl; try discriminate;
    intros H%negb_true_iff; unfold is_structural in H;
    apply orb_false_iff in H as [[? ?]%orb_false_iff ?]; exists tag; eauto 10.
Qed.

(** A tag that is not table structure changes nothing. *)
Lemma handle_other_tag p e : is_other_tag e = true → handle p e = p.
Proof.
  intros (tag & [->|[a ->]] & Ht & Hr & Hc)%is_other_tag_inv; cbn [handle].
  - unfold handle_endtag. by rewrite Ht, Hr, Hc.
  - unfold handle_starttag. by rewrite Ht, Hr, Hc.
Qed.

(** Character data goes to the open cell, whatever the depth. *)
Lemma handle_data_open T ct cr cell d s :
  handle_data (Build_TableParser T ct cr (Some cell) d) s
  = Build_TableParser T ct cr (Some (cell ++ fragment s)) d.
Proof.
  unfold handle_data, fragment. cbn. destruct (nonempty (strip s)); cbn; [done|].
  by rewrite app_nil_r.
Qed.

Lemma handle_data_closed T ct cr d s :
  handle_data (Build_TableParser T ct cr None d) s = Build_TableParser T ct cr None d.
Proof. reflexivity. Qed.

(** Outside a cell, filler changes nothing. *)
Lemma handle_filler T ct cr d e :
  is_filler e = true →
  handle (Build_TableParser T ct cr None d) e = Build_TableParser T ct cr None d.
Proof.
  destruct e as [tag a|tag|s]; intros H; [by apply handle_other_tag..|].
  apply handle_data_closed.
Qed.

Ltac parser_simpl :=
  unfold set_depth, set_tables, set_current_table, set_current_row, set_current_cell;
  cbn [tables _current_table _current_row _current_cell _depth].

(** Inside a nested table only the depth and the open cell change. *)
Lemma feed_nested_inside inner : ∀ opened T ct cr cell,
  balanced opened inner = true →
  feed (Build_TableParser T ct cr cell (2 + Z.of_nat opened)) inner
  = Build_TableParser T ct cr
      (option_map (λ c, c ++ data_fragments inner) cell) 2.
Proof.
  induction inner as [|e inner IH]; intros opened T ct cr cell Hb; cbn [balanced] in Hb.
  - apply bool_decide_eq_true in Hb as ->. cbn.
    destruct cell; cbn; by rewrite ?app_nil_r.
  - assert (H0 : (2 + Z.of_nat opened =? 1)%Z = false) by (apply Z.eqb_neq; lia).
    assert (H1 : (2 + Z.of_nat opened + 1 =? 1)%Z = false) by (apply Z.eqb_neq; lia).
    rewrite feed_cons. destruct e as [tag a|tag|s]; cbn [handle].
    + unfold handle_starttag. parser_simpl. rewrite H0, H1, !andb_false_r.
      destruct (is_tag "table" tag); parser_simpl.
      * replace (2 + Z.of_nat opened + 1)%Z with (2 + Z.of_nat (S opened))%Z by lia.
        by rewrite IH.
      * cbn [andb]. by rewrite IH.
    + unfold handle_endtag. parser_simpl. rewrite H0, !andb_false_r.
      destruct (is_tag "table" tag).
      * destruct opened as [|opened]; [discriminate|].
        destruct ct; parser_simpl;
          (replace (2 + Z.of_nat (S opened) - 1)%Z with (2 + Z.of_nat opened)%Z by lia);
          by rewrite IH.
      * by rewrite IH.
    + destruct cell as [cell|].
      * rewrite handle_data_open, IH by done. cbn [option_map].
        unfold data_fragments. cbn [flat_map]. by rewrite app_assoc.
      * rewrite handle_data_closed, IH by done. reflexivity.
Qed.

(** The structural tags at depth 1. *)
Lemma start_table_outer T ct cr cell a :
  handle (Build_TableParser T ct cr cell 0) (StartTag (u "table") a)
  = Build_TableParser T (Some []) cr cell 1.
Proof. reflexivity. Qed.

Lemma end_table_outer T tb cr cell :
  handle (Build_TableParser T (Some tb) cr cell 1) (EndTag (u "table"))
  = Build_TableParser (T ++ [tb]) None cr cell 0.
Proof. reflexivity. Qed.

Lemma start_table_nested T ct cr cell a :
  handle (Build_TableParser T ct cr cell 1) (StartTag (u "table") a)
  = Build_TableParser T ct cr cell (2 + Z.of_nat 0).
Proof. reflexivity. Qed.

Lemma end_table_nested T ct cr cell :
  handle (Build_TableParser T ct cr cell 2) (EndTag (u "table"))
  = Build_TableParser T ct cr cell 1.
Proof. destruct ct; reflexivity. Qed.

Lemma start_row T ct cr cell a :
  handle (Build_TableParser T ct cr cell 1) (StartTag (u "tr") a)
  = Build_TableParser T ct (Some []) cell 1.
Proof. reflexivity. Qed.

Lemma end_row T tb r cell :
  handle (Build_TableParser T (Some tb) (Some r) cell 1) (EndTag (u "tr"))
  = Build_TableParser T (Some (tb ++ (if nonempty r then [r] else []))) None cell 1.
Proof. destruct r; cbn; by rewrite ?app_nil_r. Qed.

Lemma start_cell T ct r cell header a :
  handle (Build_TableParser T ct (Some r) cell 1) (StartTag (cell_tag header) a)
  = Build_TableParser T ct (Some r) (Some []) 1.
Proof. destruct header; reflexivity. Qed.

Lemma end_cell T ct r cell header :
  handle (Build_TableParser T ct (Some r) (Some cell) 1) (EndTag (cell_tag header))
  = Build_TableParser T ct (Some (r ++ [strip (join (u " ") cell)])) None 1.
Proof. destruct header; reflexivity. Qed.

(** A nested table, tags included, leaves a depth-1 parser as it was,
    except that its text fragments went to the open cell. *)
Lemma feed_nested_table a inner T ct cr cell :
  balanced 0 inner = true →
  feed (Build_TableParser T ct cr cell 1)
    (StartTag (u "table") a :: inner ++ [EndTag (u "table")])
  = Build_TableParser T ct cr (option_map (λ c, c ++ data_fragments inner) cell) 1.
Proof.
  intros Hb. rewrite feed_cons, feed_app, start_table_nested.
  rewrite (feed_nested_inside inner 0) by done.
  unfold feed at 1. cbn [fold_left]. apply end_table_nested.
Qed.

Lemma feed_cell_items content : ∀ T ct cr cell,
  forallb cell_item_ok content = true →
  feed (Build_TableParser T ct cr (Some cell) 1) (flat_map render_cell_item content)
  = Build_TableParser T ct cr (Some (cell ++ flat_map cell_item_fragments content)) 1.
Proof.
  induction content as [|x content IH]; intros T ct cr cell Hok.
  - cbn. by rewrite app_nil_r.
  - cbn [forallb] in Hok. apply andb_true_iff in Hok as [Hx Hok].
    cbn [flat_map]. rewrite feed_app, app_assoc.
    destruct x as [s|e|a inner]; cbn [render_cell_item cell_item_fragments cell_item_ok] in *.
    + unfold feed at 2. cbn [fold_left handle]. rewrite handle_data_open. by apply IH.
    + unfold feed at 2. cbn [fold_left]. rewrite handle_other_tag by done.
      rewrite app_nil_r. by apply IH.
    + rewrite feed_nested_table by done. by apply IH.
Qed.

Lemma feed_row_items items : ∀ T ct r,
  forallb row_item_ok items = true →
  feed (Build_TableParser T ct (Some r) None 1) (flat_map render_row_item items)
  = Build_TableParser T ct (Some (r ++ row_cells items)) None 1.
Proof.
  induction items as [|x items IH]; intros T ct r Hok.
  - cbn. by rewrite app_nil_r.
  - cbn [forallb] in Hok. apply andb_true_iff in Hok as [Hx Hok].
    unfold row_cells. cbn [flat_map]. rewrite feed_app, app_assoc.
    destruct x as [header a content|e]; cbn [render_row_item row_item_ok] in *.
    + rewrite feed_cons, start_cell, feed_app, feed_cell_items by done.
      unfold feed at 2. cbn [fold_left]. rewrite end_cell. by apply IH.
    + unfold feed at 2. cbn [fold_left]. rewrite handle_filler by done.
      rewrite app_nil_r. by apply IH.
Qed.

Lemma kept_rows_cons_row a items t :
  kept_rows (Row a items :: t)
  = (if nonempty (row_cells items) then [row_cells items] else []) ++ kept_rows t.
Proof.
  unfold kept_rows, own_rows. cbn [flat_map app]. rewrite filter_cons.
  by destruct (row_cells items).
Qed.

Lemma feed_table_items t : ∀ T tb,
  forallb table_item_ok t = true →
  feed (Build_TableParser T (Some tb) None None 1) (flat_map render_table_item t)
  = Build_TableParser T (Some (tb ++ kept_rows t)) None None 1.
Proof.
  induction t as [|x t IH]; intros T tb Hok.
  - cbn. by rewrite app_nil_r.
  - cbn [forallb] in Hok. apply andb_true_iff in Hok as [Hx Hok].
    cbn [flat_map]. rewrite feed_app.
    destruct x as [a items|e]; cbn [render_table_item table_item_ok] in *.
    + rewrite kept_rows_cons_row, app_assoc.
      rewrite feed_cons, start_row, feed_app, (feed_row_items items _ _ []) by done.
      unfold feed at 2. cbn [fold_left]. rewrite end_row. by apply IH.
    + unfold feed at 2. cbn [fold_left]. rewrite handle_filler by done. by apply IH.
Qed.

(** A well-formed table is extracted as one table, of the rows of the
    outer table that have a cell. *)
Lemma extract_table a t :
  forallb table_item_ok t = true → extract_tables (render_table a t) = [kept_rows t].
Proof.
  intros Hok. unfold extract_tables, render_table, new_parser.
  rewrite feed_cons, start_table_outer, feed_app, feed_table_items by done.
  unfold feed. cbn [fold_left]. by rewrite end_table_outer.
Qed.

Lemma own_rows_length t : length (own_rows t) = outer_row_count t.
Proof.
  unfold own_rows, outer_row_count.
  induction t as [|[a items|e] t IH]; cbn [flat_map app length]; auto.
Qed.

Lemma kept_rows_all t : Forall (λ r, r ≠ []) (own_rows t) → kept_rows t = own_rows t.
Proof.
  unfold kept_rows. induction (own_rows t) as [|r l IH]; [done|].
  intros [Hr Hl]%Forall_cons. rewrite filter_cons, decide_True by done.
  f_equal. by apply IH.
Qed.

Lemma kept_rows_app t1 t2 : kept_rows (t1 ++ t2) = kept_rows t1 ++ kept_rows t2.
Proof. unfold kept_rows, own_rows. by rewrite flat_map_app, filter_app. Qed.

Lemma row_cells_app r1 r2 : row_cells (r1 ++ r2) = row_cells r1 ++ row_cells r2.
Proof. unfold row_cells. by rewrite flat_map_app. Qed.

(** C3, as the code has it.  For a well-formed outer table with tables
    nested in its cells, [extract_tables] returns exactly one table.  Its rows are the rows of
    the outer table, in order, a row without cells being dropped: so, when
    every row of the outer table holds a cell, they are exactly the outer
    table's rows, as many as it has [tr] elements.  No row of a nested
    table is among them: of a nested table only the text reaches the
    result, inside the cell that holds it. *)
Theorem nested_table_rows_excluded (a : list (str * option str)) (t : list table_item) :
  forallb table_item_ok t = true →
  extract_tables (render_table a t) = [kept_rows t] ∧
  (Forall (λ r, r ≠ []) (own_rows t) →
   extract_tables (render_table a t) = [own_rows t]) ∧
  length (own_rows t) = outer_row_count t.
Proof.
  intros Hok. rewrite extract_table by done.
  split; [done|]. split; [|apply own_rows_length].
  intros Hcells. by rewrite kept_rows_all.
Qed.

(** C10.  Character data is appended to the open cell at any depth, so the
    text of a table nested in a cell of the outer table ends up in the text
    of that cell: the cell's text is its fragments before the nested
    table, the fragments of the nested table, and its fragments after it,
    joined by spaces. *)
Theorem nested_text_joins_outer_cell (a : list (str * option str)) (t : list table_item)
    rows_before ar cells_before header ac before an inner after cells_after rows_after :
  forallb table_item_ok t = true →
  t = rows_before
      ++ Row ar (cells_before
                 ++ Cell header ac (before ++ NestedTable an inner :: after)
                 :: cells_after)
      :: rows_after →
  (∀ T ct cr cell depth data,
     handle_data (Build_TableParser T ct cr (Some cell) depth) data
     = Build_TableParser T ct cr (Some (cell ++ fragment data)) depth) ∧
  extract_tables (render_table a t)
  = [ kept_rows rows_before
      ++ (row_cells cells_before
          ++ strip (join (u " ")
                      (flat_map cell_item_fragments before
                       ++ data_fragments inner
                       ++ flat_map cell_item_fragments after))
          :: row_cells cells_after)
      :: kept_rows rows_after ].
Proof.
  intros Hok ->. split; [intros; apply handle_data_open|].
  rewrite extract_table by done.
  rewrite kept_rows_app, kept_rows_cons_row, row_cells_app.
  cbn [row_cells flat_map app]. unfold cell_text.
  rewrite flat_map_app. cbn [flat_map cell_item_fragments].
  by destruct (row_cells cells_before).
Qed.

(** ** Substitution, trimming and tokens *)



Lemma re_sub_nomatch pat repl c (s : str) :
  pat (c :: s) = O → re_sub pat repl (c :: s) = c :: re_sub pat repl s.
Proof. intros E. unfold re_sub. cbn [re_sub_from]. by rewrite E. Qed.

Lemma re_sub_from_run pat repl p (s : str) :
  re_sub_from pat repl (run p s) s = re_sub_from pat repl 0 (drop_while p s).
Proof.
  induction s as [|c s IH]; [done|]. cbn [run drop_while].
  destruct (p c); [exact IH | done].
Qed.

Section Tokens.
Variables (p q : N → bool) (sep : N).
Hypothesis p_sep : p sep = true.
Hypothesis q_sep : q sep = true.
Hypothesis q_p : ∀ c, q c = true → p c = true.

Let R := re_sub (pat_plus p) [sep].
Let rstrip (x : str) : str := rev (drop_while q (rev x)).

Lemma sub_plus_sep c (s : str) : p c = true → R (c :: s) = sep :: R (drop_while p s).
Proof.
  intros Hc. unfold R, re_sub, pat_plus. cbn [re_sub_from run]. rewrite Hc.
  cbn [app]. by rewrite re_sub_from_run.
Qed.

Lemma sub_plus_keep c (s : str) : p c = false → R (c :: s) = c :: R s.
Proof.
  intros Hc. unfold R. apply re_sub_nomatch. unfold pat_plus. cbn [run]. by rewrite Hc.
Qed.

Lemma not_q c : p c = false → q c = false.
Proof. intros Hc. destruct (q c) eqn:E; [|done]. apply q_p in E. congruence. Qed.

Lemma lstrip_sub_dropped (s : str) :
  drop_while q (R (drop_while p s)) = R (drop_while p s).
Proof.
  induction s as [|c s IH]; [done|]. cbn [drop_while]. destruct (p c) eqn:Hc; [done|].
  rewrite sub_plus_keep by done. cbn [drop_while]. by rewrite not_q.
Qed.

Lemma lstrip_sub (s : str) : drop_while q (R s) = R (drop_while p s).
Proof.
  destruct s as [|c s]; [done|]. cbn [drop_while]. destruct (p c) eqn:Hc.
  - rewrite sub_plus_sep by done. cbn [drop_while]. rewrite q_sep.
    apply lstrip_sub_dropped.
  - rewrite sub_plus_keep by done. cbn [drop_while]. by rewrite not_q.
Qed.

Lemma drop_while_snoc (l : str) c :
  drop_while q (l ++ [c])
  = if nonempty (drop_while q l) then drop_while q l ++ [c]
    else if q c then [] else [c].
Proof.
  induction l as [|d l IH]; cbn [app drop_while]; [done|].
  destruct (q d); [exact IH | done].
Qed.

Lemma rstrip_cons c (x : str) :
  rstrip (c :: x)
  = if nonempty (rstrip x) then c :: rstrip x else if q c then [] else [c].
Proof.
  unfold rstrip. cbn [rev]. rewrite drop_while_snoc.
  destruct (drop_while q (rev x)) as [|d l] eqn:E; cbn [nonempty rev].
  - by destruct (q c).
  - rewrite rev_app_distr. cbn [rev app].
    by destruct (rev l ++ [d]) eqn:E'; [destruct (rev l); discriminate|].
Qed.

Lemma tokens_no_empty (s : str) : Forall (λ t, t ≠ []) (tokens p s).
Proof.
  induction s as [|c s IH]; cbn [tokens]; [constructor|].
  destruct (p c); [done|]. destruct s as [|d s']; [by repeat constructor|].
  destruct (p d); [by constructor|].
  destruct (tokens p (d :: s')) as [|t ts]; cbn [push_char]; [by repeat constructor|].
  apply Forall_cons in IH as [_ IH]. by constructor.
Qed.

Lemma tokens_start c (s : str) : p c = false → tokens p (c :: s) ≠ [].
Proof.
  intros Hc. cbn [tokens]. rewrite Hc. destruct s as [|d s']; [done|].
  destruct (p d); [done|]. by destruct (tokens p (d :: s')).
Qed.

Lemma join_nonempty (ts : list str) :
  Forall (λ t, t ≠ []) ts → nonempty (join [sep] ts) = nonempty ts.
Proof.
  destruct ts as [|t ts]; [done|]. intros [Ht _]%Forall_cons.
  destruct t; [done|]. by destruct ts.
Qed.

Lemma rstrip_sub_tokens (s : str) :
  rstrip (R (drop_while p s)) = join [sep] (tokens p s).
Proof.
  induction s as [|c s IH]; [done|]. cbn [drop_while tokens].
  destruct (p c) eqn:Hc; [exact IH|].
  rewrite sub_plus_keep, rstrip_cons, (not_q c) by done.
  destruct s as [|d s']; [done|]. cbn [drop_while] in IH.
  destruct (p d) eqn:Hd.
  - rewrite sub_plus_sep, rstrip_cons, q_sep, IH by done.
    rewrite join_nonempty by apply tokens_no_empty.
    by destruct (tokens p (d :: s')) as [|t ts].
  - rewrite IH. pose proof (tokens_start d s' Hd) as Hne.
    pose proof (tokens_no_empty (d :: s')) as Hall.
    destruct (tokens p (d :: s')) as [|t ts]; [done|].
    rewrite join_nonempty by done. cbn [nonempty push_char].
    by destruct ts.
Qed.

(** Replacing each run of separators by one separator and trimming gives
    the tokens joined by single separators. *)
Lemma strip_sub_tokens (s : str) :
  strip_with q (re_sub (pat_plus p) [sep] s) = join [sep] (tokens p s).
Proof.
  unfold strip_with. fold R. rewrite lstrip_sub. apply rstrip_sub_tokens.
Qed.

End Tokens.

(** ** The citation passes of [clean] *)









Section Citations.
Context {U : UnicodeData}.












Lemma clean_tokens (text : str) :
  clean text = join (u " ") (tokens isspace (strip_citations text)).
Proof.
  unfold clean, strip, strip_citations.
  apply (strip_sub_tokens isspace isspace (chr " ")); done.
Qed.

Lemma slugify_tokens (text : str) (year : pyval) :
  slugify text year = slug_of (py_str year ++ u "-" ++ take 40 text).
Proof.
  unfold slugify, slug_of.
  apply (strip_sub_tokens (λ c, negb (is_slug_char c)) (λ c, c =? chr "-") (chr "-"));
    [done..|].
  by intros c ->%N.eqb_eq.
Qed.

End Citations.

(** ** The statements of the specification on text *)

(** ** Every occurrence of a marker is deleted *)





Section Occurrences.
Context {U : UnicodeData}.
















End Occurrences.

Section TextClaims.
Context {U : UnicodeData}.

(** C6.  For every text, the empty one included, [guess_category] returns
    one of the eight categories: the first-listed category of largest
    score (the categories before it score less, those after it not more),
    where the score is the number of the category's keywords occurring in
    the lower-cased text; or "Political Catastrophe" when that largest
    score, and so every score, is zero. *)
Theorem guess_category_first_best (text : str) :
  ∃ winner before after,
    VALID_CATEGORIES = before ++ winner :: after ∧
    Forall (λ c, (score text c < score text winner)%Z) before ∧
    Forall (λ c, (score text c ≤ score text winner)%Z) after ∧
    guess_category text
    = Returned (if (0 <? score text winner)%Z then winner else u "Political Catastrophe") ∧
    (if (0 <? score text winner)%Z then winner else u "Political Catastrophe")
    ∈ VALID_CATEGORIES ∧
    length VALID_CATEGORIES = 8%nat ∧
    ((∀ c, c ∈ VALID_CATEGORIES → score text c = 0%Z) →
     guess_category text = Returned (u "Political Catastrophe")).
Proof.
  destruct (guess_category_first_max text) as (w & b & a & EV & Hb & Ha & E).
  assert (Hw : w ∈ VALID_CATEGORIES).
  { rewrite EV. apply elem_of_app. right. apply list_elem_of_here. }
  exists w, b, a. repeat split; try done.
  - destruct (0 <? score text w)%Z; [done|].
    apply (bool_decide_unpack _). by vm_compute.
  - intros Hzero. rewrite E, (Hzero w Hw). reflexivity.
Qed.


(** C7, as the code has it.  [slugify] joins the year, a hyphen and the first 40
    characters of the basis text, lower-cases, and yields the maximal runs
    of [a-z0-9] joined by single hyphens.  The collision loop returns the
    base id when it is not known, and otherwise the base id with the
    least suffix -1, -2, ... that is not known; this is the id of an
    accepted record. *)
Theorem slugify_then_suffix :
  (∀ text year, slugify text year = slug_of (py_str year ++ u "-" ++ take 40 text)) ∧
  (∀ (ids : gset str) base_id fuel,
     (size ids ≤ fuel)%nat →
     ∃ r, unique_id fuel ids base_id base_id 1 = Returned r ∧ (r ∉ ids) ∧
          (((base_id ∉ ids) ∧ r = base_id) ∨
           (base_id ∈ ids ∧
            (∃ k, (1 ≤ k)%Z ∧ r = base_id ++ u "-" ++ str_of_int k ∧
                  (∀ j, (1 ≤ j < k)%Z → base_id ++ u "-" ++ str_of_int j ∈ ids))))) ∧
  (∀ row hint (ids : gset str) e,
     row_to_entry row hint ids = Returned (Some e) →
     ∃ first_cell claimant prediction outcome,
       detect_shape (map clean row) = Some (first_cell, claimant, prediction, outcome) ∧
       unique_id (S (size ids)) ids
         (slugify (claimant ++ u "-" ++ take 20 prediction) (PyInt (e_year e)))
         (slugify (claimant ++ u "-" ++ take 20 prediction) (PyInt (e_year e))) 1
       = Returned (e_id e)).
Proof.
  split; [apply slugify_tokens|]. split.
  - intros ids base_id fuel Hfuel. by apply unique_id_enough.
  - intros row hint ids e (c0 & cl & pr & out & Eshape & E)%row_to_entry_Some.
    apply finish_entry_Some in E as (g & _ & _ & _ & _ & Eid & _).
    by exists c0, cl, pr, out.
Qed.

End TextClaims.

(** ** Concrete runs

    The inputs below are ASCII, on which every database agrees. *)

(** The other scenarios of the specification: a header row and a row
    dated 2030 are rejected, and of two rows with the same basis the
    second gets the suffix -1. *)
Example header_row_rejected (U : UnicodeData) :
  row_to_entry [u "Year"; u "Prediction"; u "Outcome"] [] ∅ = Returned None.
Proof. vm_compute. reflexivity. Qed.

Example future_row_rejected (U : UnicodeData) :
  row_to_entry [u "2030"; u "X"; u "Something will happen to the world"] [] ∅
  = Returned None.
Proof. vm_compute. reflexivity. Qed.

Example same_basis_suffixed (U : UnicodeData) :
  let row := [u "2001"; u "John Smith will see the end"; u "no"] in
  let html :=
    render_table []
      [ Row [] (map (λ c, Cell false [] [Text c]) row);
        Row [] (map (λ c, Cell false [] [Text c]) row) ] in
  option_map (map e_id) (match main (λ _, Some html) 0 [] [(u "Page", u "hint")] with
                         | Returned l => Some l
                         | _ => None
                         end)
  = Some [ u "2001-john-smith-will-see-the-end-john-smith-w";
           u "2001-john-smith-will-see-the-end-john-smith-w-1" ].
Proof. vm_compute. reflexivity. Qed.

(** C1: the scenario row is accepted, with any database and the empty
    hint, but its reality is the synthesized sentence, since the outcome
    text "It did not happen" has 17 characters. *)
Lemma batra_reality_is_synthesized :
  length (u "It did not happen") = 17%nat ∧
  (∀ U : UnicodeData, ∃ e,
     row_to_entry batra_row [] ∅ = Returned (Some e) ∧
     e_reality e = u "The predicted event did not occur as described by 2004." ∧
     e_reality e ≠ u "It did not happen").
Proof.
  split; [reflexivity|]. intros U. eexists. split; [vm_compute; reflexivity|].
  split; [reflexivity|]. discriminate.
Qed.

(** C3: a well-formed outer table with a table nested in a cell, one of
    whose two rows has no cell: the row without cells is not in the
    result, which has one row where the outer table has two. *)
Lemma nested_table_drops_empty_row :
  forallb table_item_ok empty_row_example = true ∧
  outer_row_count empty_row_example = 2%nat ∧
  own_rows empty_row_example = [[]; [u "A B"]] ∧
  extract_tables (render_table [] empty_row_example) = [[[u "A B"]]] ∧
  extract_tables (render_table [] empty_row_example) ≠ [own_rows empty_row_example].
Proof.
  assert (E : extract_tables (render_table [] empty_row_example) = [[[u "A B"]]])
    by (vm_compute; reflexivity).
  repeat split; try (vm_compute; reflexivity). rewrite E. discriminate.
Qed.

(** Markers beside other bracketed text, and a marker that only forms
    when another is deleted: the pass does not look at its own result. *)
Example clean_marker_beside_brackets (U : UnicodeData) :
  clean (u "see [nb 1] and [2] x") = u "see [nb 1] and x".
Proof. vm_compute. reflexivity. Qed.

Example clean_leaves_formed_marker (U : UnicodeData) :
  clean (u "[[1]1]") = u "[1]".
Proof. vm_compute. reflexivity. Qed.


(** C7: the year and the text are joined by a hyphen, which the slug of
    their plain concatenation lacks. *)
Lemma slugify_joins_with_hyphen :
  (∀ U : UnicodeData,
     slugify (u "abc") (PyInt 1999) = u "1999-abc" ∧
     slug_of (py_str (PyInt 1999) ++ take 40 (u "abc")) = u "1999abc") ∧
  u "1999-abc" ≠ u "1999abc".
Proof. split; [intros U; split; vm_compute; reflexivity | discriminate]. Qed.


Lemma slugify_then_suffix_witness :
  ∃ r, unique_id 1 {[ u "1999-abc" ]} (u "1999-abc") (u "1999-abc") 1 = Returned r ∧
       r ∉ ({[ u "1999-abc" ]} : gset str).
Proof.
  destruct (proj1 (proj2 (@slugify_then_suffix ascii_only)) {[ u "1999-abc" ]}
              (u "1999-abc") 1%nat) as (r & E & Hr & _).
  - by rewrite size_singleton.
  - by exists r.
Defined.

Lemma accepted_year_in_range_witness :
  ∃ e, row_to_entry (U := ascii_only) batra_row [] ∅ = Returned (Some e) ∧
       (1000 ≤ e_year e < 2026)%Z.
Proof.
  eexists. split; [vm_compute; reflexivity|].
  apply (proj1 (@accepted_year_in_range ascii_only batra_row [] ∅)).
  vm_compute. reflexivity.
Defined.

Lemma accepted_reality_witness :
  ∃ e, row_to_entry (U := ascii_only) batra_row_long [] ∅ = Returned (Some e) ∧
       e_reality e = u "The collapse did not happen at all".
Proof.
  eexists. split; [vm_compute; reflexivity|].
  match goal with |- e_reality ?e = _ =>
    destruct (@accepted_reality ascii_only batra_row_long [] ∅ e)
      as (c0 & cl & pr & out & Eshape & E)
  end.
  - vm_compute. reflexivity.
  - injection Eshape as <- <- <- <-. exact E.
Defined.

Lemma nested_table_rows_excluded_witness :
  forallb table_item_ok nested_example = true ∧
  extract_tables (render_table [] nested_example) = [[[u "A B C"; u "D"]]] ∧
  outer_row_count nested_example = 1%nat.
Proof.
  split; [vm_compute; reflexivity|].
  destruct (nested_table_rows_excluded [] nested_example eq_refl) as (_ & E & _).
  split; [|reflexivity]. apply E. repeat constructor. discriminate.
Defined.

Lemma nested_text_joins_outer_cell_witness :
  extract_tables (render_table [] nested_example) = [[[u "A B C"; u "D"]]].
Proof.
  exact (proj2 (nested_text_joins_outer_cell [] nested_example
    [TableFiller (Data (u " "))] [] [] false [] [Text (u " A ")] []
    [ StartTag (u "tr") []; StartTag (u "td") []; Data (u "B");
      EndTag (u "td"); EndTag (u "tr") ]
    [Text (u "C")] [Cell true [] [Text (u "D")]] [] eq_refl eq_refl)).
Defined.

(** * Further properties of the code *)

(** ** Trimmed and separated text *)

Lemma drop_while_head p c (x : str) : p c = false → drop_while p (c :: x) = c :: x.
Proof. intros H. cbn. by rewrite H. Qed.

Section Separated.
Variables (p : N → bool) (sep : N).
Hypothesis p_sep : p sep = true.

Lemma tokens_chars (s : str) : Forall (Forall (λ c, p c = false)) (tokens p s).
Proof.
  induction s as [|c s IH]; cbn [tokens]; [constructor|].
  destruct (p c) eqn:Hc; [done|]. destruct s as [|d s']; [by repeat constructor|].
  destruct (p d); [constructor; [by repeat constructor | done]|].
  destruct (tokens p (d :: s')) as [|t ts]; cbn [push_char]; [by repeat constructor|].
  apply Forall_cons in IH as [Ht IH]. constructor; [by constructor | done].
Qed.

Lemma single_separators_plain (t rest : str) :
  Forall (λ c, p c = false) t →
  single_separators p sep (t ++ rest) = single_separators p sep rest.
Proof.
  induction 1 as [|c t Hc Ht IH]; [done|]. cbn [app single_separators].
  by rewrite Hc, IH.
Qed.

Lemma join_single_separators (ts : list str) :
  Forall (λ t, t ≠ []) ts → Forall (Forall (λ c, p c = false)) ts →
  single_separators p sep (join [sep] ts) = true ∧
  match join [sep] ts with [] => ts = [] | c :: _ => p c = false end.
Proof.
  induction ts as [|t ts IH]; [done|]. intros [Hne Hnes]%Forall_cons [Ht Hts]%Forall_cons.
  destruct (IH Hnes Hts) as [IH1 IH2]. cbn [join].
  assert (Hhead : match t with [] => False | c :: _ => p c = false end).
  { destruct t; [done|]. by apply Forall_cons in Ht as [? _]. }
  destruct ts as [|t2 ts].
  - split; [|by destruct t].
    rewrite <- (app_nil_r t). by rewrite single_separators_plain.
  - split; [|by destruct t].
    rewrite single_separators_plain by done. cbn [app single_separators].
    rewrite p_sep, N.eqb_refl, IH1. destruct (join [sep] (t2 :: ts)); [done|].
    by rewrite IH2.
Qed.

Lemma join_tokens_separated (s : str) : separated p sep (join [sep] (tokens p s)) = true.
Proof.
  destruct (join_single_separators (tokens p s)) as [H1 H2];
    [apply tokens_no_empty | apply tokens_chars |].
  unfold separated. rewrite H1. destruct (join [sep] (tokens p s)); [done|].
  by rewrite H2.
Qed.

(** What [separated] says, spelled out. *)
Lemma separated_facts (r : str) :
  separated p sep r = true →
  (∀ c, c ∈ r → p c = true → c = sep) ∧
  (∀ a x y b, r = a ++ x :: y :: b → p x = true → p y = false) ∧
  (∀ c rest, r = c :: rest → p c = false) ∧
  (∀ front c, r = front ++ [c] → p c = false).
Proof.
  unfold separated. intros [Hhead Hsep]%andb_true_iff. repeat split.
  - clear Hhead. induction r as [|d r IH]; intros c Hc Hp; [inversion Hc|].
    cbn [single_separators] in Hsep. apply andb_true_iff in Hsep as [Hd Hr].
    apply elem_of_cons in Hc as [->|Hc]; [|by apply IH].
    rewrite Hp in Hd. apply andb_true_iff in Hd as [Hd%N.eqb_eq _]. done.
  - clear Hhead. intros a. revert r Hsep.
    induction a as [|d a IH]; intros r Hsep x y b -> Hx.
    + cbn [app single_separators] in Hsep. rewrite Hx in Hsep.
      apply andb_true_iff in Hsep as [[_ Hy%negb_true_iff]%andb_true_iff _]. done.
    + cbn [app single_separators] in Hsep. apply andb_true_iff in Hsep as [_ Hsep].
      by eapply IH.
  - intros c rest ->. by apply negb_true_iff in Hhead.
  - clear Hhead. intros front. revert r Hsep.
    induction front as [|d front IH]; intros r Hsep c ->.
    + cbn [app single_separators] in Hsep. destruct (p c); [|done].
      by rewrite andb_false_r in Hsep.
    + cbn [app single_separators] in Hsep. apply andb_true_iff in Hsep as [_ Hsep].
      by eapply IH.
Qed.

End Separated.

Section FurtherText.
Context {U : UnicodeData}.

(** X1.  A cleaned text is in whitespace normal form: its only whitespace
    characters are spaces, no two of them are adjacent, and it neither
    starts nor ends with one. *)
Theorem clean_whitespace_normal (text : str) :
  (∀ c, c ∈ clean text → isspace c = true → c = chr " ") ∧
  (∀ a x y b, clean text = a ++ x :: y :: b → isspace x = true → isspace y = false) ∧
  (∀ c rest, clean text = c :: rest → isspace c = false) ∧
  (∀ front c, clean text = front ++ [c] → isspace c = false).
Proof.
  apply (separated_facts isspace (chr " ")).
  rewrite clean_tokens. by apply (join_tokens_separated isspace (chr " ")).
Qed.

(** X2.  A slug is made of the characters a-z, 0-9 and the hyphen; it has
    no two adjacent hyphens and neither starts nor ends with a hyphen. *)
Theorem slugify_shape (text : str) (year : pyval) :
  (∀ c, c ∈ slugify text year → is_slug_char c = true ∨ c = chr "-") ∧
  (∀ a b, slugify text year ≠ a ++ chr "-" :: chr "-" :: b) ∧
  (∀ rest, slugify text year ≠ chr "-" :: rest) ∧
  (∀ front, slugify text year ≠ front ++ [chr "-"]).
Proof.
  destruct (separated_facts (λ c, negb (is_slug_char c)) (chr "-") (slugify text year))
    as (H1 & H2 & H3 & H4).
  { rewrite slugify_tokens. by apply join_tokens_separated. }
  repeat split.
  - intros c Hc. destruct (is_slug_char c) eqn:E; [by left|]. right.
    apply (H1 c Hc). by rewrite E.
  - intros a b E. by specialize (H2 a _ _ b E eq_refl).
  - intros rest E. by specialize (H3 _ _ E).
  - intros front E. by specialize (H4 _ _ E).
Qed.

End FurtherText.

(** ** Slugs and ids *)

Lemma u_cons a s : u (String a s) = chr a :: u s.
Proof. reflexivity. Qed.

Lemma uint_digits d : Forall (λ c, is_digit09 c = true) (u (NilEmpty.string_of_uint d)).
Proof. induction d; cbn [NilEmpty.string_of_uint]; rewrite ?u_cons; by constructor. Qed.

Lemma str_of_int_digits y :
  (0 ≤ y)%Z → str_of_int y ≠ [] ∧ Forall (λ c, is_digit09 c = true) (str_of_int y).
Proof.
  unfold str_of_int. destruct y as [|q|q]; [| |lia]; intros _.
  - split; [done|]. by repeat constructor.
  - cbn [Z.to_int NilZero.string_of_int NilZero.string_of_uint].
    pose proof (DecimalPos.Unsigned.to_uint_nonnil q) as Hq.
    pose proof (uint_digits (Pos.to_uint q)) as Hd.
    destruct (Pos.to_uint q); try done; by rewrite u_cons in *.
Qed.

Lemma tokens_first p (ds : str) c (rest : str) :
  ds ≠ [] → Forall (λ d, p d = false) ds → p c = true →
  tokens p (ds ++ c :: rest) = ds :: tokens p rest.
Proof.
  intros Hne Hds Hc. induction Hds as [|d ds Hd Hds IH]; [done|].
  cbn [app tokens]. rewrite Hd. destruct ds as [|d2 ds].
  - cbn [app]. rewrite Hc. cbn [tokens]. by rewrite Hc.
  - apply Forall_cons in Hds as [Hd2 _]. cbn [app] in *. rewrite Hd2.
    by rewrite IH.
Qed.

Section FurtherSlug.
Context {U : UnicodeData}.

Lemma lower_from_digits (ds : str) : ∀ before rest,
  Forall (λ c, is_digit09 c = true) ds →
  lower_from before (ds ++ rest) = ds ++ lower_from (before ++ ds) rest.
Proof.
  induction ds as [|d ds IH]; intros before rest Hds.
  - by rewrite app_nil_r.
  - apply Forall_cons in Hds as [Hd Hds]. cbn [app lower_from].
    assert ((d <? 128) = true ∧ ascii_lower d = d) as [-> ->].
    { unfold ascii_lower, is_upper_AZ, is_digit09, in_range in *. chr_consts.
      apply andb_true_iff in Hd as [H1%N.leb_le H2%N.leb_le]. split.
      - apply N.ltb_lt. lia.
      - by rewrite (proj2 (N.leb_gt 65 d)) by lia. }
    cbn [app]. rewrite IH by done. by rewrite <- app_assoc.
Qed.

Lemma is_slug_digit c : is_digit09 c = true → negb (is_slug_char c) = false.
Proof. unfold is_slug_char. intros ->. by rewrite orb_true_r. Qed.

(** The slug of digits, a hyphen and more text starts with the digits. *)
Lemma slug_of_digits (ds rest : str) :
  ds ≠ [] → Forall (λ c, is_digit09 c = true) ds →
  ∃ tail, slug_of (ds ++ u "-" ++ rest) = ds ++ tail ∧
          (tail = [] ∨ ∃ tail', tail = chr "-" :: tail').
Proof.
  intros Hne Hds. unfold slug_of, lower. rewrite lower_from_digits by done.
  change (u "-" ++ rest) with (chr "-" :: rest). cbn [lower_from].
  change (chr "-" <? 128) with true. change (ascii_lower (chr "-")) with (chr "-").
  cbn [app]. rewrite tokens_first; [|done| |done]; cycle 1.
  { eapply Forall_impl; [exact Hds|]. apply is_slug_digit. }
  cbn [join]. destruct (tokens _ _) as [|t ts]; [exists []; by rewrite app_nil_r; auto|].
  eexists. split; [reflexivity|]. right. eauto.
Qed.

(** X3.  With a year that is a non-negative integer, the slug starts with
    the decimal digits of the year, and what follows, if anything, starts
    with a hyphen; so the slug is not empty, whatever the text. *)
Theorem slugify_starts_with_year (text : str) (y : Z) :
  (0 ≤ y)%Z →
  ∃ tail, slugify text (PyInt y) = str_of_int y ++ tail ∧
          (tail = [] ∨ ∃ tail', tail = chr "-" :: tail') ∧
          slugify text (PyInt y) ≠ [].
Proof.
  intros [Hne Hds]%str_of_int_digits. rewrite slugify_tokens. cbn [py_str].
  destruct (slug_of_digits (str_of_int y) (take 40 text) Hne Hds) as (tail & E & Htail).
  exists tail. rewrite E. repeat split; [done|]. by destruct (str_of_int y).
Qed.

End FurtherSlug.

(** ** More on the row classifier *)

Lemma default_category_valid : u "Political Catastrophe" ∈ VALID_CATEGORIES.
Proof. apply (bool_decide_unpack _). by vm_compute. Qed.

Section FurtherClassifier.
Context {U : UnicodeData}.

Lemma guess_category_valid (text : str) :
  ∃ cat, guess_category text = Returned cat ∧ cat ∈ VALID_CATEGORIES.
Proof.
  destruct (guess_category_first_max text) as (w & b & a & EV & _ & _ & E).
  eexists. split; [exact E|]. destruct (0 <? score text w)%Z.
  - rewrite EV. apply elem_of_app. right. apply list_elem_of_here.
  - apply default_category_valid.
Qed.

(** An accepted record, field by field. *)
Lemma finish_entry_record fuel ids hint c0 claimant prediction outcome e :
  finish_entry fuel ids hint c0 claimant prediction outcome = Returned (Some e) →
  ∃ token i cat,
    search_year None c0 = Some token ∧
    py_int token = Returned (e_year e) ∧
    unique_id fuel ids
      (slugify (claimant ++ u "-" ++ take 20 prediction) (PyInt (e_year e)))
      (slugify (claimant ++ u "-" ++ take 20 prediction) (PyInt (e_year e))) 1
    = Returned i ∧
    guess_category (prediction ++ u " " ++ outcome ++ u " " ++ hint) = Returned cat ∧
    (15 ≤ length prediction)%nat ∧
    e = {| e_id := i;
           e_year := e_year e;
           e_prediction := prediction;
           e_source := if nonempty claimant && negb (bool_decide (claimant = prediction))
                       then claimant else u "Unknown";
           e_reality := if nonempty outcome && (20 <? length outcome)%nat
                           && negb (bool_decide (lower outcome ∈ LOW_INFORMATION))
                        then outcome else synthesized (e_year e);
           e_category := cat;
           e_tags := [];
           e_harvested := true |}.
Proof.
  unfold finish_entry. intros E.
  destruct (existsb _ _); [done|]. destruct (negb (nonempty c0)); [done|].
  destruct (search_year None c0) as [g|]; [|done].
  destruct (py_int g) as [y| |] eqn:Ey; try done. cbn [mbind result_bind] in E.
  destruct (2026 <=? y)%Z; [done|].
  destruct (negb (nonempty prediction)) eqn:E1; [done|].
  destruct (Nat.ltb_spec (length prediction) 15); [done|]. cbn [orb] in E.
  destruct (unique_id fuel _ _ _ _) as [i| |] eqn:Ei; try done.
  cbn [mbind result_bind] in E.
  destruct (guess_category _) as [cat| |] eqn:Ec; try done.
  cbn [mbind result_bind] in E. injection E as <-. cbn [e_year].
  by exists g, i, cat.
Qed.

Lemma finish_entry_decided fuel ids hint c0 claimant prediction outcome :
  (size ids ≤ fuel)%nat →
  if negb (existsb (λ h, contains h (lower c0)) HEADER_WORDS)
     && nonempty c0
     && match search_year None c0 with
        | Some token =>
            match py_int token with
            | Returned y => (y <? 2026)%Z
            | _ => false
            end
        | None => false
        end
     && (15 <=? length prediction)%nat
  then ∃ e, finish_entry fuel ids hint c0 claimant prediction outcome = Returned (Some e)
  else finish_entry fuel ids hint c0 claimant prediction outcome = Returned None.
Proof.
  intros Hfuel. unfold finish_entry.
  destruct (existsb _ _); [done|]. destruct (nonempty c0); [|done]. cbn [negb andb].
  destruct (search_year None c0) as [g|] eqn:Eg; [|done].
  apply search_year_token in Eg as [(y & -> & _)%year_token_int _].
  cbn [mbind result_bind]. rewrite Z.leb_antisym.
  destruct (y <? 2026)%Z; [|done]. cbn [negb andb].
  destruct (Nat.leb_spec 15 (length prediction)) as [Hlen|Hlen].
  - destruct (Nat.ltb_spec (length prediction) 15); [lia|].
    destruct prediction; [simpl in Hlen; lia|]. cbn [nonempty negb orb].
    destruct (unique_id_enough fuel ids
      (slugify (claimant ++ u "-" ++ take 20 (n :: prediction)) (PyInt y)) Hfuel)
      as (i & -> & _).
    cbn [mbind result_bind].
    destruct (guess_category_valid ((n :: prediction) ++ u " " ++ outcome ++ u " " ++ hint))
      as (cat & -> & _).
    cbn [mbind result_bind]. eauto.
  - destruct (Nat.ltb_spec (length prediction) 15); [|lia].
    by rewrite orb_true_r.
Qed.

(** X4.  Whether a row is accepted depends on the row alone, not on the
    hint or the known ids: it is accepted exactly when it has three cells
    or more, its first cleaned cell is not empty and holds no header
    word, the leftmost year token of that cell that stands as a whole word
    exists and is below 2026 (a later token is not looked at), and its
    prediction cell has 15 characters or more; otherwise it is rejected
    with [None]. *)
Theorem row_accepted_iff (row : list str) (hint : str) (existing_ids : gset str) :
  (acceptable row = true ↔ ∃ e, row_to_entry row hint existing_ids = Returned (Some e)) ∧
  (acceptable row = false ↔ row_to_entry row hint existing_ids = Returned None).
Proof.
  unfold row_to_entry, acceptable. rewrite row_to_entry_fuel_shape.
  destruct (detect_shape (map clean row)) as [[[[c0 cl] pr] out]|].
  - pose proof (finish_entry_decided (S (size existing_ids)) existing_ids hint c0 cl pr out)
      as H.
    destruct (_ && (15 <=? length pr)%nat).
    + destruct H as [e He]; [lia|]. rewrite He. split; split; try done; eauto.
    + rewrite H by lia. split; split; try done. by intros [e ?].
  - split; split; try done. by intros [e ?].
Qed.

Lemma source_not_prediction (claimant prediction : str) :
  (15 ≤ length prediction)%nat →
  (if nonempty claimant && negb (bool_decide (claimant = prediction))
   then claimant else u "Unknown") ≠ prediction.
Proof.
  intros Hlen. destruct (nonempty claimant); cbn [andb].
  - destruct (bool_decide_reflect (claimant = prediction)) as [->|]; cbn [negb]; [|done].
    intros <-. simpl in Hlen. lia.
  - intros <-. simpl in Hlen. lia.
Qed.

(** X5.  Every accepted record has a prediction of 15 characters or more,
    one of the eight categories, no tags, the harvested flag set, a
    source and a reality that are not empty, and a source different from
    its prediction. *)
Theorem accepted_record_fields (row : list str) (hint : str) (existing_ids : gset str)
    (e : entry) :
  row_to_entry row hint existing_ids = Returned (Some e) →
  (15 ≤ length (e_prediction e))%nat ∧
  e_category e ∈ VALID_CATEGORIES ∧
  e_tags e = [] ∧
  e_harvested e = true ∧
  e_source e ≠ [] ∧
  e_reality e ≠ [] ∧
  e_source e ≠ e_prediction e.
Proof.
  intros (c0 & cl & pr & out & _ & E)%row_to_entry_Some.
  apply finish_entry_record in E as (g & i & cat & _ & _ & _ & Ecat & Hlen & ->).
  cbn [e_prediction e_category e_tags e_harvested e_source e_reality e_year].
  repeat split; try done.
  - destruct (guess_category_valid (pr ++ u " " ++ out ++ u " " ++ hint)) as (c & Ec & Hc).
    congruence.
  - by destruct cl; cbn; [|destruct (bool_decide _)].
  - destruct out; [done|]. cbn [nonempty andb].
    destruct (_ && _); [done|]. unfold synthesized. done.
  - by apply source_not_prediction.
Qed.

(** X6.  In a row of exactly three cells the second cell is the
    prediction and the source is "Unknown"; in a row of four cells or
    more the third cell is the prediction, and the source is the second
    cell unless that is empty or equal to the prediction, when it is
    "Unknown". *)
Theorem accepted_source_rule (row : list str) (hint : str) (existing_ids : gset str)
    (e : entry) :
  row_to_entry row hint existing_ids = Returned (Some e) →
  (length row = 3%nat →
   map clean row !! 1%nat = Some (e_prediction e) ∧ e_source e = u "Unknown") ∧
  ((4 ≤ length row)%nat →
   map clean row !! 2%nat = Some (e_prediction e) ∧
   ∃ claimant, map clean row !! 1%nat = Some claimant ∧
     e_source e = if bool_decide (claimant = [] ∨ claimant = e_prediction e)
                  then u "Unknown" else claimant).
Proof.
  intros (c0 & cl & pr & out & Eshape & E)%row_to_entry_Some.
  apply finish_entry_record in E as (g & i & cat & _ & _ & _ & _ & _ & ->).
  cbn [e_prediction e_source].
  destruct row as [|r0 [|r1 [|r2 [|r3 rest]]]]; try discriminate; cbn [map] in Eshape;
    cbn [detect_shape] in Eshape; injection Eshape as <- <- <- <-.
  - split; [|cbn [length]; lia]. intros _. split; [done|].
    rewrite bool_decide_eq_true_2 by done. by rewrite andb_false_r.
  - split; [cbn [length]; lia|]. intros _. split; [done|].
    exists (clean r1). split; [done|]. destruct (clean r1) as [|c cs] eqn:E1.
    + cbn [nonempty andb]. by rewrite bool_decide_eq_true_2 by (by left).
    + cbn [nonempty andb]. destruct (bool_decide_reflect (c :: cs = clean r2)) as [Heq|Hne].
      * by rewrite bool_decide_eq_true_2 by (by right).
      * rewrite bool_decide_eq_false_2; [done|]. by intros [?|?].
Qed.

(** X7.  The hint and the known ids bear on the category and the id only:
    two records accepted for the same row agree on year, prediction,
    source, reality, tags and flag, and on the category when the hints
    are equal. *)
Theorem accepted_fields_from_row (row : list str) (hint1 hint2 : str)
    (ids1 ids2 : gset str) (e1 e2 : entry) :
  row_to_entry row hint1 ids1 = Returned (Some e1) →
  row_to_entry row hint2 ids2 = Returned (Some e2) →
  e_year e1 = e_year e2 ∧
  e_prediction e1 = e_prediction e2 ∧
  e_source e1 = e_source e2 ∧
  e_reality e1 = e_reality e2 ∧
  e_tags e1 = e_tags e2 ∧
  e_harvested e1 = e_harvested e2 ∧
  (hint1 = hint2 → e_category e1 = e_category e2).
Proof.
  intros (c0 & cl & pr & out & Eshape & E1)%row_to_entry_Some
         (c0' & cl' & pr' & out' & Eshape' & E2)%row_to_entry_Some.
  rewrite Eshape in Eshape'. injection Eshape' as <- <- <- <-.
  apply finish_entry_record in E1 as (g1 & i1 & cat1 & Eg1 & Ey1 & _ & Ec1 & _ & R1).
  apply finish_entry_record in E2 as (g2 & i2 & cat2 & Eg2 & Ey2 & _ & Ec2 & _ & R2).
  assert (e_year e1 = e_year e2) as Hy by congruence.
  rewrite R1, R2. cbn [e_year e_prediction e_source e_reality e_tags e_harvested e_category].
  rewrite Hy. repeat split; try done. intros <-. congruence.
Qed.

End FurtherClassifier.

Section FurtherIds.
Context {U : UnicodeData}.

Lemma slugify_chars (text : str) (year : pyval) c :
  c ∈ slugify text year → is_slug_char c = true ∨ c = chr "-".
Proof.
  intros Hc.
  destruct (separated_facts (λ c, negb (is_slug_char c)) (chr "-") (slugify text year))
    as (H1 & _).
  { rewrite slugify_tokens. by apply join_tokens_separated. }
  destruct (is_slug_char c) eqn:E; [by left|]. right. apply (H1 c Hc). by rewrite E.
Qed.

(** X8.  The id of an accepted record is made of the characters a-z, 0-9
    and the hyphen, and starts with the four digits of the record's year,
    followed by nothing or by a hyphen. *)
Theorem accepted_id_shape (row : list str) (hint : str) (existing_ids : gset str)
    (e : entry) :
  row_to_entry row hint existing_ids = Returned (Some e) →
  (∀ c, c ∈ e_id e → is_slug_char c = true ∨ c = chr "-") ∧
  (∃ tail, e_id e = str_of_int (e_year e) ++ tail ∧
           (tail = [] ∨ ∃ tail', tail = chr "-" :: tail')) ∧
  length (str_of_int (e_year e)) = 4%nat.
Proof.
  intros (c0 & cl & pr & out & _ & E)%row_to_entry_Some.
  apply finish_entry_record in E as (g & i & cat & Eg & Ey & Ei & _ & _ & ->).
  cbn [e_id e_year] in *. set (y := e_year e) in *.
  apply search_year_token in Eg as [Hg _].
  destruct (year_token_int g Hg) as (y' & Ey' & Hy).
  assert (y' = y) as -> by congruence.
  assert (0 ≤ y)%Z as Hpos by lia.
  destruct (str_of_int_digits y Hpos) as [Hne Hds].
  set (base := slugify (cl ++ u "-" ++ take 20 pr) (PyInt y)) in *.
  assert (Hbase : ∃ tail, base = str_of_int y ++ tail ∧
                          (tail = [] ∨ ∃ tail', tail = chr "-" :: tail')).
  { unfold base. rewrite slugify_tokens. cbn [py_str]. by apply slug_of_digits. }
  destruct (unique_id_enough (S (size existing_ids)) existing_ids base) as (r & Er & _ & Hr);
    [lia|].
  assert (r = i) as -> by congruence.
  split; [|split].
  - intros c Hc. destruct Hr as [[_ ->]|(_ & k & Hk & -> & _)]; [by eapply slugify_chars|].
    unfold candidate in Hc. apply elem_of_app in Hc as [Hc|Hc]; [by eapply slugify_chars|].
    apply elem_of_cons in Hc as [->|Hc]; [by right|]. left.
    destruct (str_of_int_digits k) as [_ Hk']; [lia|].
    rewrite Forall_forall in Hk'. unfold is_slug_char. rewrite (Hk' c) by done.
    apply orb_true_r.
  - destruct Hbase as (tail & Eb & Htail).
    destruct Hr as [[_ ->]|(_ & k & Hk & -> & _)]; [by exists tail|].
    exists (tail ++ u "-" ++ str_of_int k). unfold candidate. rewrite Eb, <- app_assoc.
    split; [done|]. right. destruct Htail as [->|(t & ->)]; cbn; eauto.
  - assert (Hcases : (1000 ≤ y ≤ 2029)%Z) by lia. clear -Hcases.
    assert (∀ z, (1000 ≤ z ≤ 2029)%Z → length (str_of_int z) = 4%nat) as Hlen; [|by apply Hlen].
    intros z Hz. assert (∃ n, (n < 1030)%nat ∧ z = (1000 + Z.of_nat n)%Z) as (n & Hn & ->).
    { exists (Z.to_nat (z - 1000)). lia. }
    clear Hz. revert n Hn.
    assert (Hall : forallb (λ n, Nat.eqb (length (str_of_int (1000 + Z.of_nat n))) 4)
                     (seq 0 1030) = true) by (vm_compute; reflexivity).
    intros n Hn. rewrite forallb_forall in Hall.
    apply Nat.eqb_eq, Hall, in_seq. lia.
Qed.

Lemma isword_digit c : is_digit09 c = true → isword c = true.
Proof.
  intros Hc. unfold isword. assert ((c <? 128) = true) as ->.
  { unfold is_digit09, in_range in Hc. chr_consts.
    apply andb_true_iff in Hc as [_ H%N.leb_le]. apply N.ltb_lt. lia. }
  rewrite Hc. apply orb_true_r.
Qed.

Lemma year_token_ends (g : str) :
  is_year_token g = true →
  ∃ c1 c2 c3 c4, g = [c1; c2; c3; c4] ∧ isword c1 = true ∧ isword c4 = true.
Proof.
  destruct g as [|c1 [|c2 [|c3 [|c4 [|]]]]]; try discriminate.
  cbn [is_year_token]. intros H. exists c1, c2, c3, c4. split; [done|].
  apply orb_true_iff in H as [H|H]; repeat (apply andb_true_iff in H as [H ?]);
    apply N.eqb_eq in H as ->; split; by (reflexivity || apply isword_digit).
Qed.

Lemma pat_year_boundaries prev (s g : str) :
  pat_year prev s = Some g →
  ∃ after, s = g ++ after ∧ from_option isword false prev = false ∧
           from_option isword false (head after) = false.
Proof.
  intros E. destruct (pat_year_token _ _ _ E) as [Hg _].
  destruct (year_token_ends g Hg) as (c1 & c2 & c3 & c4 & -> & Hw1 & Hw4).
  unfold pat_year in E. destruct (at_boundary prev s) eqn:Eb; [|discriminate].
  destruct s as [|d1 [|d2 [|d3 [|d4 rest]]]]; try discriminate.
  destruct (_ && at_boundary _ rest) eqn:E2; [|discriminate].
  injection E as -> -> -> ->. apply andb_true_iff in E2 as [_ E2].
  exists rest. split; [done|]. unfold at_boundary in *. cbn [head from_option] in *.
  rewrite Hw1 in Eb. rewrite Hw4 in E2.
  split; [destruct (from_option isword false prev) | destruct (from_option _ _ (head rest))];
    simpl in *; congruence.
Qed.

Lemma before_char_cons prev c (b : str) : before_char prev (c :: b) = before_char (Some c) b.
Proof.
  unfold before_char. destruct b as [|d b]; [done|]. rewrite last_cons_cons.
  destruct (last (d :: b)) eqn:E; [done|]. by apply last_None in E.
Qed.

(** [re.search] finds the leftmost year token that stands between word
    boundaries. *)
Lemma search_year_leftmost (s : str) : ∀ prev g,
  search_year prev s = Some g →
  ∃ before after,
    s = before ++ g ++ after ∧
    from_option isword false (before_char prev before) = false ∧
    from_option isword false (head after) = false ∧
    (∀ b1 b2, before = b1 ++ b2 → b2 ≠ [] →
              pat_year (before_char prev b1) (b2 ++ g ++ after) = None).
Proof.
  induction s as [|c s IH]; intros prev g; cbn [search_year];
    destruct (pat_year prev _) as [g'|] eqn:E; try discriminate.
  - intros [= <-]. apply pat_year_boundaries in E as (after & Es & ? & ?).
    exists [], after. repeat split; try done.
    intros b1 b2 Hb Hne. destruct b1, b2; done.
  - intros [= <-]. apply pat_year_boundaries in E as (after & Es & ? & ?).
    exists [], after. repeat split; try done.
    intros b1 b2 Hb Hne. destruct b1, b2; done.
  - intros (before & after & -> & Hb & Ha & Hleft)%IH.
    exists (c :: before), after. rewrite before_char_cons. repeat split; try done.
    intros [|d b1] b2 Hsplit Hne.
    + cbn [app] in Hsplit. subst b2. exact E.
    + cbn [app] in Hsplit. injection Hsplit as <- ->. rewrite before_char_cons.
      by apply Hleft.
Qed.

(** X9.  The year of an accepted record is read from the leftmost place of
    the first cleaned cell where a year token (1000-1999 or 2000-2029)
    stands as a whole word: the characters next to it, if any, are not
    word characters, and the pattern matches at no earlier place. *)
Theorem accepted_year_whole_word (row : list str) (hint : str) (existing_ids : gset str)
    (e : entry) :
  row_to_entry row hint existing_ids = Returned (Some e) →
  ∃ first_cell before token after,
    map clean row !! 0%nat = Some first_cell ∧
    first_cell = before ++ token ++ after ∧
    is_year_token token = true ∧
    py_int token = Returned (e_year e) ∧
    (∀ c, last before = Some c → isword c = false) ∧
    (∀ c, head after = Some c → isword c = false) ∧
    (∀ b1 b2, before = b1 ++ b2 → b2 ≠ [] →
              pat_year (last b1) (b2 ++ token ++ after) = None).
Proof.
  intros (c0 & cl & pr & out & Eshape & E)%row_to_entry_Some.
  apply finish_entry_record in E as (g & i & cat & Eg & Ey & _).
  destruct (search_year_token _ _ _ Eg) as [Htok _].
  apply search_year_leftmost in Eg as (before & after & -> & Hb & Ha & Hleft).
  exists (before ++ g ++ after), before, g, after. repeat split; try done.
  - destruct (map clean row) as [|? [|? [|? [|? ?]]]]; simpl in Eshape; by simplify_eq.
  - intros c Hc. unfold before_char in Hb. by rewrite Hc in Hb.
  - intros c Hc. by rewrite Hc in Ha.
  - intros b1 b2 Hsplit Hne. specialize (Hleft b1 b2 Hsplit Hne).
    unfold before_char in Hleft. by destruct (last b1).
Qed.

End FurtherIds.

(** * The table parser on arbitrary markup *)

Lemma drop_while_suffix p (s : str) : ∃ pre, s = pre ++ drop_while p s.
Proof.
  induction s as [|c s [pre IH]]; [by exists []|]. cbn [drop_while].
  destruct (p c); [|by exists []]. exists (c :: pre). cbn [app]. by f_equal.
Qed.

Lemma drop_while_first p (s : str) c r : drop_while p s = c :: r → p c = false.
Proof.
  induction s as [|d s IH]; [done|]. cbn [drop_while]. destruct (p d) eqn:E; [done|].
  by intros [= <- _].
Qed.

Lemma strip_with_ends p (s : str) c r :
  strip_with p s = c :: r → p c = false ∧ p (List.last r c) = false.
Proof.
  unfold strip_with. set (t := drop_while p s). intros H.
  destruct (drop_while_suffix p (rev t)) as [pre Hpre].
  apply (f_equal (@rev _)) in Hpre. rewrite rev_involutive, rev_app_distr, H in Hpre.
  split; [by apply (drop_while_first p s c (r ++ rev pre))|].
  destruct (drop_while p (rev t)) as [|d w] eqn:Ew; [done|].
  apply drop_while_first in Ew. cbn [rev] in H.
  destruct (rev w) as [|x l]; cbn [app] in H.
  - by injection H as <- <-.
  - injection H as <- <-. by rewrite last_last.
Qed.

Lemma strip_is_stripped (s : str) : is_stripped (strip s) = true.
Proof.
  unfold is_stripped. destruct (strip s) as [|c r] eqn:E; [done|].
  apply strip_with_ends in E as [-> ->]. done.
Qed.

Lemma forallb_snoc {A} (f : A → bool) l x : forallb f (l ++ [x]) = forallb f l && f x.
Proof. rewrite forallb_app. cbn. by rewrite andb_true_r. Qed.

(** Every handler call keeps the stored rows filled and trimmed. *)
Lemma handle_rows_ok p e : parser_rows_ok p = true → parser_rows_ok (handle p e) = true.
Proof.
  destruct p as [T ct cr cell d]. unfold parser_rows_ok.
  cbn [tables _current_table _current_row _current_cell _depth].
  intros [[HT Hct]%andb_true_iff Hcr]%andb_true_iff.
  destruct e as [tag a|tag|s]; cbn [handle].
  - unfold handle_starttag. parser_simpl.
    destruct (is_tag "table" tag); [destruct (_ =? 1)%Z; parser_simpl; by rewrite HT, ?Hct, Hcr|].
    destruct (is_tag "tr" tag && _); [parser_simpl; by rewrite HT, Hct|].
    destruct (_ && bool_decide _); parser_simpl; by rewrite HT, Hct, Hcr.
  - unfold handle_endtag. parser_simpl. destruct (is_tag "table" tag).
    { destruct ct as [t|]; [|parser_simpl; by rewrite HT, Hcr].
      destruct (d =? 1)%Z; parser_simpl; [|by rewrite HT, Hct, Hcr].
      cbn [from_option] in *. by rewrite forallb_snoc, HT, Hct, Hcr. }
    destruct (is_tag "tr" tag && _).
    { destruct cr as [[|c cs]|], ct as [t|]; parser_simpl; cbn [from_option] in *;
        rewrite ?HT, ?Hct; try done.
      unfold filled_table in *. rewrite forallb_snoc, Hct. unfold filled_row.
      by rewrite Hcr. }
    destruct (is_cell_tag tag && _); [|parser_simpl; by rewrite HT, Hct, Hcr].
    destruct cell as [cell|], cr as [r|]; parser_simpl; cbn [from_option] in *;
      rewrite ?HT, ?Hct; try done.
    unfold stripped_row in *. by rewrite forallb_snoc, Hcr, strip_is_stripped.
  - unfold handle_data. parser_simpl. destruct cell as [cell|]; [|parser_simpl; by rewrite HT, Hct, Hcr].
    destruct (nonempty (strip s)); parser_simpl; by rewrite HT, Hct, Hcr.
Qed.

Lemma feed_rows_ok markup : ∀ p, parser_rows_ok p = true → parser_rows_ok (feed p markup) = true.
Proof.
  induction markup as [|e markup IH]; intros p Hp; [done|].
  rewrite feed_cons. by apply IH, handle_rows_ok.
Qed.

(** X10.  Whatever the markup, every row of every extracted table has a
    cell at least, and no cell starts or ends with whitespace. *)
Theorem extracted_rows_filled (markup : list event) :
  Forall (Forall (λ row, row ≠ [] ∧ Forall (λ cell, is_stripped cell = true) row))
    (extract_tables markup).
Proof.
  pose proof (feed_rows_ok markup new_parser eq_refl) as H. unfold parser_rows_ok in H.
  apply andb_true_iff in H as [[H _]%andb_true_iff _].
  unfold extract_tables. apply Forall_forall. intros t Ht.
  rewrite forallb_forall in H. apply list_elem_of_In, H in Ht.
  apply Forall_forall. intros row Hrow. unfold filled_table in Ht.
  rewrite forallb_forall in Ht. apply list_elem_of_In, Ht in Hrow.
  apply andb_true_iff in Hrow as [Hne Hcells]. split; [by destruct row|].
  apply Forall_forall. intros cell Hcell. unfold stripped_row in Hcells.
  rewrite forallb_forall in Hcells. by apply Hcells, list_elem_of_In.
Qed.

Lemma handle_table_count p e :
  (tables_begun (handle p e) ≤ tables_begun p + (if is_table_start e then 1 else 0))%nat ∧
  (length (tables (handle p e)) ≤ length (tables p) + (if is_table_end e then 1 else 0))%nat ∧
  (length (tables (handle p e)) ≤ tables_begun p)%nat.
Proof.
  destruct p as [T ct cr cell d]. unfold tables_begun.
  destruct e as [tag a|tag|s]; cbn [handle is_table_start is_table_end].
  - unfold handle_starttag. parser_simpl. destruct (is_tag "table" tag).
    + destruct (_ =? 1)%Z; parser_simpl; destruct ct; lia.
    + destruct (is_tag "tr" tag && _); [parser_simpl; lia|].
      destruct (_ && bool_decide _); parser_simpl; lia.
  - unfold handle_endtag. parser_simpl. destruct (is_tag "table" tag).
    + destruct ct as [t|]; [|parser_simpl; lia].
      destruct (d =? 1)%Z; parser_simpl; rewrite ?length_app; simpl; lia.
    + destruct (is_tag "tr" tag && _).
      { destruct cr as [[|c cs]|], ct as [t|]; parser_simpl; lia. }
      destruct (is_cell_tag tag && _); [|parser_simpl; lia].
      destruct cell as [cell|], cr as [r|]; parser_simpl; lia.
  - unfold handle_data. parser_simpl. destruct cell as [cell|]; [|parser_simpl; lia].
    destruct (nonempty (strip s)); parser_simpl; lia.
Qed.

Lemma feed_table_count markup : ∀ p,
  (tables_begun (feed p markup) ≤ tables_begun p + table_starts markup)%nat ∧
  (length (tables (feed p markup)) ≤ length (tables p) + table_ends markup)%nat.
Proof.
  unfold table_starts, table_ends.
  induction markup as [|e markup IH]; intros p; [cbn; lia|].
  rewrite feed_cons. destruct (IH (handle p e)) as [IH1 IH2].
  destruct (handle_table_count p e) as (H1 & H2 & _).
  cbn [List.filter]. destruct (is_table_start e), (is_table_end e); cbn [length]; lia.
Qed.

(** X11.  Whatever the markup, there are no more extracted tables than
    opening [table] tags, and no more than closing [table] tags. *)
Theorem extracted_tables_bounded (markup : list event) :
  (length (extract_tables markup) ≤ table_starts markup)%nat ∧
  (length (extract_tables markup) ≤ table_ends markup)%nat.
Proof.
  destruct (feed_table_count markup new_parser) as [H1 H2].
  unfold extract_tables, tables_begun in *. cbn in H1, H2. split; lia.
Qed.

Lemma feed_page page : ∀ T,
  forallb page_item_ok page = true →
  feed (Build_TableParser T None None None 0) (render_page page)
  = Build_TableParser (T ++ page_tables page) None None None 0.
Proof.
  unfold render_page, page_tables.
  induction page as [|x page IH]; intros T Hok; [cbn; by rewrite app_nil_r|].
  cbn [forallb] in Hok. apply andb_true_iff in Hok as [Hx Hok].
  cbn [flat_map]. rewrite feed_app.
  destruct x as [a t|e]; cbn [render_page_item page_item_ok] in *.
  - unfold render_table. rewrite feed_cons, start_table_outer, feed_app, feed_table_items by done.
    unfold feed at 2. cbn [fold_left]. rewrite end_table_outer, IH by done.
    by rewrite <- app_assoc.
  - unfold feed at 2. cbn [fold_left]. rewrite handle_filler by done. by apply IH.
Qed.

(** X12.  A page of well-formed tables, with text and other tags between
    them, is extracted as one table for each of its tables, in page
    order, each with its own rows that have a cell; a table none of whose
    rows has a cell is extracted as an empty table. *)
Theorem extract_page (page : list page_item) :
  forallb page_item_ok page = true →
  extract_tables (render_page page) = page_tables page.
Proof. intros Hok. unfold extract_tables, new_parser. by rewrite feed_page. Qed.

(** With no table open, markup that never brings the depth to 1 adds no
    table. *)
Lemma feed_stays_closed markup : ∀ T cr cell d,
  stays_closed d markup = true →
  tables (feed (Build_TableParser T None cr cell d) markup) = T.
Proof.
  induction markup as [|e markup IH]; intros T cr cell d Hm; [done|].
  rewrite feed_cons. cbn [stays_closed] in Hm. destruct e as [tag a|tag|s]; cbn [handle].
  - unfold handle_starttag. parser_simpl. destruct (is_tag "table" tag).
    + apply andb_true_iff in Hm as [Hd Hm]. apply negb_true_iff in Hd. rewrite Hd.
      by apply IH.
    + destruct (is_tag "tr" tag && _); [parser_simpl; by apply IH|].
      destruct (_ && bool_decide _); parser_simpl; by apply IH.
  - unfold handle_endtag. parser_simpl. destruct (is_tag "table" tag).
    + parser_simpl. by apply IH.
    + destruct (is_tag "tr" tag && _).
      { destruct cr as [[|c cs]|]; parser_simpl; by apply IH. }
      destruct (is_cell_tag tag && _); [|by apply IH].
      destruct cell as [cell|], cr as [r|]; parser_simpl; by apply IH.
  - unfold handle_data. parser_simpl. destruct cell as [cell|]; [|by apply IH].
    destruct (nonempty (strip s)); parser_simpl; by apply IH.
Qed.

Lemma feed_stray_end_tags k : ∀ d,
  feed (Build_TableParser [] None None None d) (repeat (EndTag (u "table")) k)
  = Build_TableParser [] None None None (d - Z.of_nat k).
Proof.
  induction k as [|k IH]; intros d; [cbn; f_equal; lia|].
  cbn [repeat]. rewrite feed_cons.
  change (handle _ _) with (Build_TableParser [] None None None (d - 1)).
  rewrite IH. f_equal. lia.
Qed.

(** X13.  Tables are collected only from an opening [table] tag that
    brings the nesting depth to 1: after [k] closing [table] tags that
    close nothing, a markup none of whose opening tags brings the depth to
    1 yields no table at all. *)
Theorem stray_end_tags_hide_tables (k : nat) (markup : list event) :
  stays_closed (- Z.of_nat k) markup = true →
  extract_tables (repeat (EndTag (u "table")) k ++ markup) = [].
Proof.
  intros Hm. unfold extract_tables, new_parser.
  rewrite feed_app, feed_stray_end_tags. by apply feed_stays_closed.
Qed.

(** * The run as a whole *)

Section FurtherRun.
Context {U : UnicodeData}.
Variable fetch : str → option (list event).
Variable limit : Z.

Lemma row_to_entry_decided (row : list str) (hint : str) (ids : gset str) :
  if acceptable row then ∃ e, row_to_entry row hint ids = Returned (Some e)
  else row_to_entry row hint ids = Returned None.
Proof.
  unfold row_to_entry, acceptable. rewrite row_to_entry_fuel_shape.
  destruct (detect_shape (map clean row)) as [[[[c0 cl] pr] out]|]; [|done].
  apply finish_entry_decided. lia.
Qed.

Lemma acceptable_rows_app (r1 r2 : list (list str * str)) :
  acceptable_rows (r1 ++ r2) = acceptable_rows r1 ++ acceptable_rows r2.
Proof. apply List.filter_app. Qed.

Lemma page_rows_cons title hint (t : table) tabs :
  page_rows title hint (t :: tabs)
  = map (λ row, (row, hint ++ u " " ++ title)) t ++ page_rows title hint tabs.
Proof. unfold page_rows. cbn [concat]. by rewrite map_app. Qed.

Lemma accepted_prefix_refl st :
  limit_reached limit st = false → accepted_prefix limit st st [].
Proof.
  intros H. exists [], [], []. rewrite app_nil_r.
  split; [done|]. split; [done|]. split; [constructor|]. by right.
Qed.

Lemma accepted_prefix_stop st st1 r1 r2 :
  accepted_prefix limit st st1 r1 → limit_reached limit st1 = true →
  accepted_prefix limit st st1 (r1 ++ r2).
Proof.
  intros (es & A' & A'' & Hnew & HA & Hes & Hend) Hr.
  exists es, A', (A'' ++ acceptable_rows r2).
  rewrite acceptable_rows_app, HA, <- app_assoc.
  split; [done|]. split; [done|]. split; [done|].
  destruct Hend as [?|[? _]]; [by left | congruence].
Qed.

Lemma accepted_prefix_trans st st1 st2 r1 r2 :
  accepted_prefix limit st st1 r1 → limit_reached limit st1 = false →
  accepted_prefix limit st1 st2 r2 →
  accepted_prefix limit st st2 (r1 ++ r2).
Proof.
  intros (es1 & A1 & B1 & Hnew1 & HA1 & Hes1 & Hend1) Hr
         (es2 & A2 & B2 & Hnew2 & HA2 & Hes2 & Hend2).
  destruct Hend1 as [[? _]|[_ ->]]; [congruence|]. rewrite app_nil_r in HA1.
  exists (es1 ++ es2), (A1 ++ A2), B2.
  split; [by rewrite Hnew2, Hnew1, app_assoc|].
  rewrite acceptable_rows_app, HA1, HA2, <- !app_assoc.
  split; [done|]. split; [by apply Forall2_app | done].
Qed.

Section Capped.
Hypothesis limit_nonneg : (0 ≤ limit)%Z.

Lemma rows_loop_prefix hint title (rows : table) : ∀ st,
  limit_reached limit st = false →
  ∃ st', rows_loop limit hint title rows st = Returned st' ∧
         accepted_prefix limit st st' (map (λ row, (row, hint ++ u " " ++ title)) rows).
Proof.
  induction rows as [|row rows IH]; intros st Hst; cbn [rows_loop map].
  { exists st. split; [done|]. by apply accepted_prefix_refl. }
  pose proof (row_to_entry_decided row (hint ++ u " " ++ title)
                (existing_ids st ∪ list_to_set (map e_id (new_entries st)))) as Hrow.
  change ((row, hint ++ u " " ++ title) :: ?l) with ([(row, hint ++ u " " ++ title)] ++ l).
  destruct (acceptable row) eqn:Eacc.
  - destruct Hrow as [e He]. rewrite He. cbn [mbind result_bind].
    set (st1 := {| existing_ids := existing_ids st ∪ {[e_id e]};
                   new_entries := new_entries st ++ [e] |}).
    assert (H1 : accepted_prefix limit st st1 [(row, hint ++ u " " ++ title)]).
    { exists [e], [(row, hint ++ u " " ++ title)], []. split; [done|]. split; [|split].
      - unfold acceptable_rows. cbn [List.filter fst]. by rewrite Eacc.
      - constructor; [|constructor]. by eexists.
      - destruct (limit_reached limit st1) eqn:E1; [left|by right]. split; [done|].
        unfold limit_reached in *. cbn [new_entries st1] in *.
        rewrite length_app in *. cbn [length] in *.
        apply andb_true_iff in E1 as [E0 E1]. rewrite E0 in Hst. cbn [andb] in Hst.
        apply Z.leb_le in E1. apply Z.leb_gt in Hst. lia. }
    destruct (limit_reached limit st1) eqn:E1.
    + exists st1. split; [done|]. by apply accepted_prefix_stop.
    + destruct (IH st1 E1) as (st' & -> & H'). exists st'. split; [done|].
      by eapply accepted_prefix_trans.
  - rewrite Hrow. cbn [mbind result_bind]. destruct (IH st Hst) as (st' & -> & H').
    exists st'. split; [done|]. destruct H' as (es & A' & A'' & ? & HA & ? & ?).
    exists es, A', A''. split; [done|]. split; [|done].
    rewrite acceptable_rows_app. unfold acceptable_rows at 1. cbn [List.filter fst].
    by rewrite Eacc.
Qed.

Lemma tables_loop_prefix hint title (tabs : list table) : ∀ st,
  limit_reached limit st = false →
  ∃ st', tables_loop limit hint title tabs st = Returned st' ∧
         accepted_prefix limit st st' (page_rows title hint tabs).
Proof.
  induction tabs as [|t tabs IH]; intros st Hst; cbn [tables_loop].
  { exists st. split; [done|]. by apply accepted_prefix_refl. }
  rewrite page_rows_cons.
  destruct (rows_loop_prefix hint title t st Hst) as (st1 & -> & H1).
  cbn [mbind result_bind]. destruct (limit_reached limit st1) eqn:E1.
  - exists st1. split; [done|]. by apply accepted_prefix_stop.
  - destruct (IH st1 E1) as (st' & -> & H'). exists st'. split; [done|].
    by eapply accepted_prefix_trans.
Qed.

Lemma targets_loop_prefix (targets : list (str * str)) : ∀ st,
  limit_reached limit st = false →
  ∃ st', targets_loop fetch limit targets st = Returned st' ∧
         accepted_prefix limit st st' (fetched_rows fetch targets).
Proof.
  induction targets as [|[title hint] targets IH]; intros st Hst;
    cbn [targets_loop fetched_rows flat_map fst snd].
  { exists st. split; [done|]. by apply accepted_prefix_refl. }
  destruct (fetch title) as [html|]; [|by apply IH].
  destruct (tables_loop_prefix hint title (extract_tables html) st Hst) as (st1 & -> & H1).
  cbn [mbind result_bind]. destruct (limit_reached limit st1) eqn:E1.
  - exists st1. split; [done|]. by apply accepted_prefix_stop.
  - destruct (IH st1 E1) as (st' & -> & H'). exists st'. split; [done|].
    by eapply accepted_prefix_trans.
Qed.

End Capped.

(** X14.  With a limit of 0 or more, a run ends and returns one record
    for each acceptable row of the tables of the pages that could be
    fetched, in the order of targets, tables and rows, and stops at the
    limit when that is not 0: the records are those of the first [limit]
    acceptable rows. *)
Theorem main_accepts_in_order (db : list entry) (targets : list (str * str)) :
  (0 ≤ limit)%Z →
  ∃ new,
    main fetch limit db targets = Returned new ∧
    Forall2 accepted_from new (capped limit (acceptable_rows (fetched_rows fetch targets))) ∧
    (limit ≠ 0%Z → (Z.of_nat (length new) ≤ limit)%Z).
Proof.
  intros Hlimit.
  set (st0 := {| existing_ids := list_to_set (map e_id db); new_entries := [] |}).
  assert (H0 : limit_reached limit st0 = false).
  { unfold limit_reached. cbn. destruct (Z.eqb_spec limit 0); [done|]. cbn.
    apply Z.leb_gt. lia. }
  destruct (targets_loop_prefix Hlimit targets st0 H0)
    as (st & E & es & A' & A'' & Hnew & HA & Hes & Hend).
  exists (new_entries st). unfold main. fold st0. rewrite E. cbn [mbind result_bind].
  split; [done|]. change (new_entries st = es) in Hnew. subst es.
  pose proof (Forall2_length _ _ _ Hes) as Hlen.
  assert (Hcap : capped limit (acceptable_rows (fetched_rows fetch targets)) = A').
  { unfold capped. rewrite HA. destruct Hend as [[Hr Hl]|[Hr ->]].
    - unfold limit_reached in Hr. apply andb_true_iff in Hr as [->%negb_true_iff _].
      rewrite take_app_length'; [done|]. lia.
    - rewrite app_nil_r. destruct (Z.eqb_spec limit 0); [done|].
      unfold limit_reached in Hr. destruct (Z.eqb_spec limit 0); [done|]. cbn in Hr.
      apply Z.leb_gt in Hr. apply take_ge. lia. }
  rewrite Hcap. split; [done|]. intros Hne.
  destruct Hend as [[_ Hl]|[Hr _]]; [lia|].
  unfold limit_reached in Hr. destruct (Z.eqb_spec limit 0); [done|]. cbn in Hr.
  apply Z.leb_gt in Hr. lia.
Qed.

Section Negative.
Hypothesis limit_negative : (limit < 0)%Z.

Lemma negative_limit_reached st : limit_reached limit st = true.
Proof.
  unfold limit_reached. apply andb_true_iff. split.
  - apply negb_true_iff, Z.eqb_neq. lia.
  - apply Z.leb_le. lia.
Qed.

Lemma rows_loop_negative hint title (rows : table) : ∀ st,
  ∃ st' es, rows_loop limit hint title rows st = Returned st' ∧
            new_entries st' = new_entries st ++ es ∧
            Forall2 accepted_from es
              (take 1 (acceptable_rows (map (λ row, (row, hint ++ u " " ++ title)) rows))).
Proof.
  induction rows as [|row rows IH]; intros st; cbn [rows_loop map].
  { exists st, []. rewrite app_nil_r. split; [done|]. split; [done|]. constructor. }
  pose proof (row_to_entry_decided row (hint ++ u " " ++ title)
                (existing_ids st ∪ list_to_set (map e_id (new_entries st)))) as Hrow.
  unfold acceptable_rows. cbn [List.filter fst]. destruct (acceptable row) eqn:Eacc.
  - destruct Hrow as [e He]. rewrite He. cbn [mbind result_bind].
    rewrite negative_limit_reached. eexists _, [e]. split; [done|]. split; [done|].
    cbn. constructor; [|constructor]. by eexists.
  - rewrite Hrow. cbn [mbind result_bind]. apply IH.
Qed.

Lemma targets_loop_negative (targets : list (str * str)) : ∀ st,
  ∃ st' es, targets_loop fetch limit targets st = Returned st' ∧
            new_entries st' = new_entries st ++ es ∧
            Forall2 accepted_from es (take 1 (acceptable_rows (first_table_rows fetch targets))).
Proof.
  induction targets as [|[title hint] targets IH]; intros st;
    cbn [targets_loop first_table_rows].
  { exists st, []. rewrite app_nil_r. split; [done|]. split; [done|]. constructor. }
  destruct (fetch title) as [html|]; [|by apply IH].
  destruct (extract_tables html) as [|t tabs]; cbn [tables_loop take].
  - cbn [mbind result_bind]. rewrite negative_limit_reached.
    exists st, []. rewrite app_nil_r. split; [done|]. split; [done|]. constructor.
  - destruct (rows_loop_negative hint title t st) as (st1 & es & -> & Hnew & Hes).
    cbn [mbind result_bind]. rewrite !negative_limit_reached. cbn [mbind result_bind].
    rewrite negative_limit_reached. exists st1, es. split; [done|]. split; [done|].
    unfold page_rows. cbn [concat]. by rewrite app_nil_r.
Qed.

End Negative.

(** X15.  With a negative limit a run looks at the first table of the
    first page that could be fetched and at nothing else, and returns the
    record of the first acceptable row of that table, or no record. *)
Theorem main_negative_limit (db : list entry) (targets : list (str * str)) :
  (limit < 0)%Z →
  ∃ new,
    main fetch limit db targets = Returned new ∧
    Forall2 accepted_from new (take 1 (acceptable_rows (first_table_rows fetch targets))) ∧
    (length new ≤ 1)%nat.
Proof.
  intros Hlimit.
  destruct (targets_loop_negative Hlimit targets
              {| existing_ids := list_to_set (map e_id db); new_entries := [] |})
    as (st & es & E & Hnew & Hes).
  exists (new_entries st). unfold main. rewrite E. cbn [mbind result_bind].
  split; [done|]. cbn [new_entries app] in Hnew. rewrite Hnew.
  split; [done|]. apply Forall2_length in Hes. rewrite Hes, length_take. lia.
Qed.

End FurtherRun.

(** * The curator file *)

Lemma drop_while_split p (s : str) :
  ∃ pre, s = pre ++ drop_while p s ∧ forallb p pre = true.
Proof.
  induction s as [|c s (pre & IH & Hpre)]; [by exists []|]. cbn [drop_while].
  destruct (p c) eqn:E; [|by exists []]. exists (c :: pre). cbn [app forallb].
  rewrite E, Hpre. split; [by f_equal | done].
Qed.

(** [strip] cuts characters off the two ends, and only such as it strips. *)
Lemma strip_with_infix p (s : str) :
  ∃ pre post, s = pre ++ strip_with p s ++ post ∧
              forallb p pre = true ∧ forallb p post = true.
Proof.
  unfold strip_with. destruct (drop_while_split p s) as (pre & Hs & Hpre).
  destruct (drop_while_split p (rev (drop_while p s))) as (pre' & Ht & Hpre').
  exists pre, (rev pre'). split; [|split; [done|]].
  - rewrite <- rev_app_distr, <- Ht, rev_involutive. exact Hs.
  - rewrite forallb_forall in *. intros c Hc. apply Hpre'. by apply in_rev.
Qed.

Lemma forallb_strip (f : char → bool) (s : str) :
  forallb f s = true → forallb f (strip s) = true.
Proof.
  destruct (strip_with_infix isspace s) as (pre & post & Hs & _). fold (strip s) in Hs.
  rewrite Hs at 1. rewrite !forallb_app. by intros [_ [? _]%andb_true_iff]%andb_true_iff.
Qed.

Lemma cut_at_spec sep (s : str) :
  forallb (λ c, negb (c =? sep)) (cut_at sep s).1 = true ∧
  s = (cut_at sep s).1 ++ match (cut_at sep s).2 with Some b => sep :: b | None => [] end.
Proof.
  induction s as [|c s [IH1 IH2]]; [done|]. cbn [cut_at].
  destruct (N.eqb_spec c sep) as [->|Hne]; [done|].
  destruct (cut_at sep s) as [a b]. cbn [fst snd forallb app] in *.
  rewrite IH1, andb_true_r. split; [|by f_equal]. by apply negb_true_iff, N.eqb_neq.
Qed.

Lemma is_linebreak_space c : is_linebreak c = true → isspace c = true.
Proof.
  unfold is_linebreak, isspace, in_range.
  rewrite !orb_true_iff, !andb_true_iff, !N.leb_le, !N.eqb_eq. lia.
Qed.

Lemma splitlines_from_no_linebreak (s : str) : ∀ line skip,
  no_linebreak line = true →
  forallb no_linebreak (splitlines_from line skip s) = true.
Proof.
  induction s as [|c s IH]; intros line skip Hl; cbn [splitlines_from].
  - destruct (nonempty line); cbn [forallb]; by rewrite ?Hl.
  - destruct (skip && (c =? 10)); [by apply IH|].
    destruct (is_linebreak c) eqn:E.
    + cbn [forallb]. rewrite Hl. by apply IH.
    + apply IH. unfold no_linebreak in *. by rewrite forallb_snoc, Hl, E.
Qed.

(** The title of a line that does not start with [#] does not either. *)
Lemma stripped_title_start (l a rest : str) :
  is_stripped l = true → l = a ++ rest → starts_with (u "#") l = false →
  starts_with (u "#") (strip a) = false.
Proof.
  intros Hl -> Hs. destruct (strip_with_infix isspace a) as (pre & post & Ha & Hpre & _).
  fold (strip a) in Ha. destruct (strip a) as [|c t]; [done|].
  destruct pre as [|x pre].
  - rewrite Ha in Hs. cbn in Hs |- *. by destruct (35 =? c).
  - rewrite Ha in Hl. cbn [app is_stripped] in Hl. cbn [forallb] in Hpre.
    apply andb_true_iff in Hpre as [Hx _]. by rewrite Hx in Hl.
Qed.

Lemma parse_lines_ok (lines : list str) : ∀ targets,
  forallb no_linebreak lines = true →
  forallb parsed_target_ok targets = true →
  ∃ out, parse_lines lines targets = Returned out ∧
         forallb parsed_target_ok out = true ∧
         (length out ≤ length targets + length lines)%nat.
Proof.
  induction lines as [|line lines IH]; intros targets Hlines Hts; cbn [parse_lines].
  { exists targets. split; [done|]. split; [done|]. lia. }
  cbn [forallb] in Hlines. apply andb_true_iff in Hlines as [Hline Hlines].
  destruct (negb (nonempty (strip line)) || starts_with (u "#") (strip line)) eqn:E.
  { destruct (IH targets Hlines Hts) as (out & -> & ? & ?). exists out.
    split; [done|]. split; [done|]. cbn [length]. lia. }
  apply orb_false_iff in E as [_ Hhash].
  pose proof (strip_is_stripped line) as Hstripped.
  pose proof (forallb_strip _ line Hline) as Hnl. fold (no_linebreak (strip line)) in Hnl.
  destruct (cut_at_spec (chr "|") (strip line)) as [Hbar Hcut].
  unfold split_once. destruct (cut_at (chr "|") (strip line)) as [a ob].
  cbn [fst snd] in Hbar, Hcut.
  assert (Ha : is_stripped (strip a) && no_linebreak (strip a) && no_bar (strip a)
               && negb (starts_with (u "#") (strip a)) = true).
  { rewrite strip_is_stripped, (stripped_title_start _ a _ Hstripped Hcut Hhash).
    unfold no_bar. rewrite (forallb_strip _ a Hbar). unfold no_linebreak in *.
    rewrite Hcut, forallb_app in Hnl. apply andb_true_iff in Hnl as [Hnl _].
    by rewrite (forallb_strip _ a Hnl). }
  destruct ob as [b|]; cbn [map getitem lookup list_lookup length Nat.ltb Nat.leb
                            mbind result_bind].
  - destruct (IH (targets ++ [(strip a, strip b)]) Hlines) as (out & -> & ? & Hlen).
    { rewrite forallb_snoc, Hts. unfold parsed_target_ok. cbn [fst snd].
      rewrite Ha, strip_is_stripped. unfold no_linebreak in *.
      rewrite Hcut, forallb_app in Hnl. apply andb_true_iff in Hnl as [_ Hnl].
      cbn [forallb] in Hnl. apply andb_true_iff in Hnl as [_ Hnl].
      by rewrite (forallb_strip _ b Hnl). }
    exists out. split; [done|]. split; [done|].
    rewrite length_app in Hlen. cbn [length] in *. lia.
  - destruct (IH (targets ++ [(strip a, [])]) Hlines) as (out & -> & ? & Hlen).
    { rewrite forallb_snoc, Hts. unfold parsed_target_ok. cbn [fst snd].
      by rewrite Ha. }
    exists out. split; [done|]. split; [done|].
    rewrite length_app in Hlen. cbn [length] in *. lia.
Qed.

(** X16.  Reading a curator file never fails, whatever its text.  Every
    title and hint it returns is trimmed and holds no line break, no title
    holds a bar or starts with [#], and there are no more targets than
    lines. *)
Theorem parse_curator_total (text : str) :
  ∃ targets,
    parse_curator text = Returned targets ∧
    forallb parsed_target_ok targets = true ∧
    (length targets ≤ length (splitlines text))%nat.
Proof.
  destruct (parse_lines_ok (splitlines text) []) as (out & E & Hok & Hlen); [|done|].
  - by apply splitlines_from_no_linebreak.
  - exists out. split; [done|]. split; [done|]. cbn [length] in Hlen. lia.
Qed.

Lemma last_cons_default {A} (r : list A) : ∀ c d, List.last (c :: r) d = List.last r c.
Proof.
  induction r as [|x r IH]; intros c d; [done|].
  change (List.last (c :: x :: r) d) with (List.last (x :: r) d).
  by rewrite (IH x d), (IH x c).
Qed.

Lemma last_app_cons {A} (l : list A) d r : ∀ c, List.last (l ++ d :: r) c = List.last r d.
Proof.
  induction l as [|x l IH]; intros c; cbn [app]; rewrite last_cons_default; [done|].
  apply IH.
Qed.

Lemma rev_head (c : char) (r : str) : ∃ t, rev (c :: r) = List.last r c :: t.
Proof.
  exists (rev (removelast (c :: r))).
  rewrite (app_removelast_last c (l := c :: r)) at 1 by done.
  by rewrite rev_app_distr, last_cons_default.
Qed.

Lemma drop_while_all p (a x : str) :
  forallb p a = true → drop_while p (a ++ x) = drop_while p x.
Proof.
  induction a as [|c a IH]; [done|]. cbn [forallb app drop_while].
  intros [-> Ha]%andb_true_iff. by apply IH.
Qed.

(** Whitespace around a trimmed text is what [strip] removes. *)
Lemma strip_pad (a s b : str) :
  nonempty s = true → is_stripped s = true →
  forallb isspace a = true → forallb isspace b = true →
  strip (a ++ s ++ b) = s.
Proof.
  intros Hne Hs Ha Hb. destruct s as [|c r]; [done|]. cbn [is_stripped] in Hs.
  apply andb_true_iff in Hs as [Hc%negb_true_iff Hd%negb_true_iff].
  unfold strip, strip_with. rewrite drop_while_all by done.
  cbn [app drop_while]. rewrite Hc.
  change (c :: r ++ b) with ((c :: r) ++ b). rewrite rev_app_distr, drop_while_all.
  - destruct (rev_head c r) as [t Ht]. rewrite Ht. cbn [drop_while]. rewrite Hd.
    by rewrite <- Ht, rev_involutive.
  - rewrite forallb_forall in *. intros x Hx. apply Hb. by apply in_rev.
Qed.

Lemma strip_stripped (s : str) : is_stripped s = true → strip s = s.
Proof.
  intros Hs. destruct s as [|c r]; [done|].
  rewrite <- (app_nil_r (c :: r)) at 1. by apply (strip_pad [] (c :: r) []).
Qed.

Lemma is_stripped_app (s1 m s2 : str) :
  nonempty s1 = true → nonempty s2 = true →
  is_stripped s1 = true → is_stripped s2 = true → is_stripped (s1 ++ m ++ s2) = true.
Proof.
  destruct s1 as [|c r1], s2 as [|d r2]; try done. intros _ _. cbn [is_stripped app].
  intros [-> _]%andb_true_iff [_ Hd]%andb_true_iff.
  by rewrite app_assoc, last_app_cons, Hd.
Qed.

Lemma cut_at_found sep (a b : str) :
  forallb (λ c, negb (c =? sep)) a = true → cut_at sep (a ++ sep :: b) = (a, Some b).
Proof.
  induction a as [|c a IH]; cbn [app cut_at forallb].
  - by rewrite N.eqb_refl.
  - intros [->%negb_true_iff Ha]%andb_true_iff. by rewrite IH.
Qed.

Lemma cut_at_missing sep (a : str) :
  forallb (λ c, negb (c =? sep)) a = true → cut_at sep a = (a, None).
Proof.
  induction a as [|c a IH]; cbn [cut_at forallb]; [done|].
  intros [->%negb_true_iff Ha]%andb_true_iff. by rewrite IH.
Qed.

Lemma splitlines_from_line (l : str) : ∀ acc rest,
  no_linebreak l = true →
  splitlines_from acc false (l ++ rest) = splitlines_from (acc ++ l) false rest.
Proof.
  induction l as [|c l IH]; intros acc rest; [by rewrite app_nil_r|].
  unfold no_linebreak. cbn [forallb app splitlines_from andb].
  intros [->%negb_true_iff Hl]%andb_true_iff.
  rewrite IH by done. by rewrite <- app_assoc.
Qed.

Lemma splitlines_join (lines : list str) :
  forallb (λ l, nonempty l && no_linebreak l) lines = true →
  splitlines (join [0x0A] lines) = lines.
Proof.
  unfold splitlines. induction lines as [|l lines IH]; [done|].
  cbn [forallb]. intros [[Hne Hl]%andb_true_iff Hrest]%andb_true_iff.
  destruct lines as [|l2 lines].
  - cbn [join]. rewrite <- (app_nil_r l) at 1. rewrite splitlines_from_line by done.
    cbn [app splitlines_from]. by rewrite Hne.
  - change (join [10] (l :: l2 :: lines)) with (l ++ 10 :: join [10] (l2 :: lines)).
    rewrite splitlines_from_line by done. cbn [app splitlines_from andb].
    change (is_linebreak 10) with true. change (10 =? 13) with false. cbv iota.
    by rewrite IH.
Qed.

Lemma format_target_line (t : str * str) :
  target_ok t = true →
  nonempty (format_target t) = true ∧ no_linebreak (format_target t) = true ∧
  is_stripped (format_target t) = true ∧ starts_with (u "#") (format_target t) = false ∧
  map strip (split_once (chr "|") (format_target t))
  = if nonempty t.2 then [t.1; t.2] else [t.1].
Proof.
  destruct t as [title hint]. unfold target_ok, parsed_target_ok, format_target.
  cbn [fst snd]. intros H. bool_props.
  destruct title as [|c title]; [done|].
  destruct (nonempty hint) eqn:Ehint.
  - split; [done|]. split; [|split; [|split]].
    + unfold no_linebreak in *. rewrite !forallb_app.
      apply andb_true_iff; split; [done|].
      apply andb_true_iff; split; [by vm_compute | done].
    + by apply is_stripped_app.
    + done.
    + unfold split_once.
      change ((c :: title) ++ u " | " ++ hint)
        with ((c :: title) ++ [chr " "] ++ chr "|" :: ([chr " "] ++ hint)).
      rewrite app_assoc, cut_at_found.
      * cbn [map]. rewrite <- (app_nil_l (c :: title)) at 1.
        rewrite <- app_assoc, strip_pad by done.
        rewrite <- (app_nil_r hint) at 1. by rewrite strip_pad.
      * unfold no_bar in *. rewrite forallb_app. apply andb_true_iff.
        split; [done | by vm_compute].
  - split; [done|]. split; [done|]. split; [done|]. split; [done|].
    unfold split_once. rewrite cut_at_missing by done. cbn [map].
    by rewrite strip_stripped.
Qed.

Lemma parse_lines_format (ts : list (str * str)) : ∀ acc,
  forallb target_ok ts = true →
  parse_lines (map format_target ts) acc = Returned (acc ++ ts).
Proof.
  induction ts as [|t ts IH]; intros acc Hts; cbn [map parse_lines].
  { by rewrite app_nil_r. }
  cbn [forallb] in Hts. apply andb_true_iff in Hts as [Ht Hts].
  destruct (format_target_line t Ht) as (Hne & _ & Hs & Hhash & Hparts).
  rewrite (strip_stripped _ Hs), Hne, Hhash. cbn [negb orb]. rewrite Hparts.
  destruct t as [title hint]. cbn [fst snd]. destruct hint as [|h hint]; cbn [nonempty].
  - cbn [getitem lookup list_lookup length Nat.ltb Nat.leb mbind result_bind].
    rewrite IH by done. by rewrite <- app_assoc.
  - cbn [getitem lookup list_lookup length Nat.ltb Nat.leb mbind result_bind].
    rewrite IH by done. by rewrite <- app_assoc.
Qed.

(** X17.  Writing targets one to a line, as [title | hint] or as the title
    alone when the hint is empty, and reading the file gives the targets
    back, in order, whenever every title is not empty, is trimmed, holds
    no bar and no line break and does not start with [#], and every hint
    is trimmed and holds no line break. *)
Theorem parse_format_round_trip (targets : list (str * str)) :
  forallb target_ok targets = true →
  parse_curator (format_curator targets) = Returned targets.
Proof.
  intros Hts. unfold parse_curator, format_curator. rewrite splitlines_join.
  - by rewrite parse_lines_format.
  - rewrite forallb_forall in *. intros l (t & <- & Ht)%in_map_iff.
    destruct (format_target_line t (Hts t Ht)) as (-> & -> & _). done.
Qed.

(** * Concrete runs of the further properties *)

Section FurtherRuns.
#[local] Existing Instance ascii_only.

(** Only the leftmost year token counts: a row whose first cell names 2027
    before 1999 is rejected. *)
Example later_year_not_looked_at :
  acceptable [u "2027 or 1999"; u "A prophet"; u "The world will end in fire";
              u "It did not"] = false ∧
  row_to_entry [u "2027 or 1999"; u "A prophet"; u "The world will end in fire";
                u "It did not"] [] ∅ = Returned None.
Proof. split; vm_compute; reflexivity. Qed.

Lemma slugify_starts_with_year_witness :
  ∃ tail,
    slugify (u "Ravi Batra") (PyInt 1999) = str_of_int 1999 ++ tail ∧
    (tail = [] ∨ ∃ tail', tail = chr "-" :: tail') ∧
    slugify (u "Ravi Batra") (PyInt 1999) ≠ [].
Proof. apply (@slugify_starts_with_year ascii_only (u "Ravi Batra") 1999). lia. Defined.

Lemma accepted_record_fields_witness :
  ∃ e, row_to_entry batra_row [] ∅ = Returned (Some e) ∧
       (15 ≤ length (e_prediction e))%nat ∧
       e_category e ∈ VALID_CATEGORIES ∧
       e_tags e = [] ∧
       e_harvested e = true ∧
       e_source e ≠ [] ∧
       e_reality e ≠ [] ∧
       e_source e ≠ e_prediction e.
Proof.
  eexists. split; [vm_compute; reflexivity|].
  apply (@accepted_record_fields ascii_only batra_row [] ∅).
  vm_compute. reflexivity.
Defined.

Lemma accepted_source_rule_witness :
  ∃ e, row_to_entry batra_row [] ∅ = Returned (Some e) ∧
       (length batra_row = 3%nat →
        map clean batra_row !! 1%nat = Some (e_prediction e) ∧ e_source e = u "Unknown") ∧
       ((4 ≤ length batra_row)%nat →
        map clean batra_row !! 2%nat = Some (e_prediction e) ∧
        ∃ claimant, map clean batra_row !! 1%nat = Some claimant ∧
          e_source e = if bool_decide (claimant = [] ∨ claimant = e_prediction e)
                       then u "Unknown" else claimant).
Proof.
  eexists. split; [vm_compute; reflexivity|].
  apply (@accepted_source_rule ascii_only batra_row [] ∅).
  vm_compute. reflexivity.
Defined.

Lemma accepted_fields_from_row_witness :
  ∃ e1 e2,
    row_to_entry batra_row [] ∅ = Returned (Some e1) ∧
    row_to_entry batra_row (u "war") {[ u "1999-ravi-batra-the-us-economy-will" ]}
    = Returned (Some e2) ∧
    e_year e1 = e_year e2 ∧
    e_prediction e1 = e_prediction e2 ∧
    e_source e1 = e_source e2 ∧
    e_reality e1 = e_reality e2 ∧
    e_tags e1 = e_tags e2 ∧
    e_harvested e1 = e_harvested e2 ∧
    ([] = u "war" → e_category e1 = e_category e2).
Proof.
  eexists _, _. split; [vm_compute; reflexivity|]. split; [vm_compute; reflexivity|].
  apply (@accepted_fields_from_row ascii_only batra_row [] (u "war") ∅
           {[ u "1999-ravi-batra-the-us-economy-will" ]});
    vm_compute; reflexivity.
Defined.

Lemma accepted_id_shape_witness :
  ∃ e, row_to_entry batra_row [] ∅ = Returned (Some e) ∧
       (∀ c, c ∈ e_id e → is_slug_char c = true ∨ c = chr "-") ∧
       (∃ tail, e_id e = str_of_int (e_year e) ++ tail ∧
                (tail = [] ∨ ∃ tail', tail = chr "-" :: tail')) ∧
       length (str_of_int (e_year e)) = 4%nat.
Proof.
  eexists. split; [vm_compute; reflexivity|].
  apply (@accepted_id_shape ascii_only batra_row [] ∅).
  vm_compute. reflexivity.
Defined.

Lemma accepted_year_whole_word_witness :
  ∃ e, row_to_entry batra_row [] ∅ = Returned (Some e) ∧
       ∃ first_cell before token after,
         map clean batra_row !! 0%nat = Some first_cell ∧
         first_cell = before ++ token ++ after ∧
         is_year_token token = true ∧
         py_int token = Returned (e_year e) ∧
         (∀ c, last before = Some c → isword c = false) ∧
         (∀ c, head after = Some c → isword c = false) ∧
         (∀ b1 b2, before = b1 ++ b2 → b2 ≠ [] →
                   pat_year (last b1) (b2 ++ token ++ after) = None).
Proof.
  eexists. split; [vm_compute; reflexivity|].
  apply (@accepted_year_whole_word ascii_only batra_row [] ∅).
  vm_compute. reflexivity.
Defined.

Lemma extract_page_witness :
  forallb page_item_ok
    [PageFiller (Data (u "x")); PageTable [] nested_example; PageTable [] []] = true ∧
  extract_tables
    (render_page [PageFiller (Data (u "x")); PageTable [] nested_example; PageTable [] []])
  = page_tables [PageFiller (Data (u "x")); PageTable [] nested_example; PageTable [] []].
Proof.
  split; [vm_compute; reflexivity|]. apply extract_page. vm_compute. reflexivity.
Defined.

Lemma stray_end_tags_hide_tables_witness :
  stays_closed (- Z.of_nat 1) batra_page = true ∧
  extract_tables (repeat (EndTag (u "table")) 1 ++ batra_page) = [].
Proof.
  split; [vm_compute; reflexivity|]. apply stray_end_tags_hide_tables.
  vm_compute. reflexivity.
Defined.

Lemma main_accepts_in_order_witness :
  ∃ new,
    main fetch_batra 1 [] batra_targets = Returned new ∧
    Forall2 (accepted_from) new
      (capped 1 (acceptable_rows (fetched_rows fetch_batra batra_targets))) ∧
    (1%Z ≠ 0%Z → (Z.of_nat (length new) ≤ 1)%Z).
Proof. apply (@main_accepts_in_order ascii_only fetch_batra 1 [] batra_targets). lia. Defined.

Lemma main_negative_limit_witness :
  ∃ new,
    main fetch_batra (-1) [] batra_targets = Returned new ∧
    Forall2 (accepted_from) new
      (take 1 (acceptable_rows (first_table_rows fetch_batra batra_targets))) ∧
    (length new ≤ 1)%nat.
Proof. apply (@main_negative_limit ascii_only fetch_batra (-1) [] batra_targets). lia. Defined.

Lemma parse_format_round_trip_witness :
  forallb target_ok batra_targets = true ∧
  parse_curator (format_curator batra_targets) = Returned batra_targets.
Proof.
  split; [vm_compute; reflexivity|]. apply parse_format_round_trip.
  vm_compute. reflexivity.
Defined.

End FurtherRuns.

(** * The ids of a run *)

Section RunIds.
Context {U : UnicodeData}.
Variable fetch : str → option (list event).
Variable limit : Z.
Variable db : list entry.

Lemma classified_of_accept (row : list str) (hint : str) (known : gset str) (e : entry) :
  row_to_entry row hint known = Returned (Some e) → classified_against known (row, hint) e.
Proof.
  intros E. split; [done|]. cbn [fst snd].
  destruct (row_to_entry_Some _ _ _ _ E) as (c0 & cl & pr & out & Eshape & Ef).
  exists c0, cl, pr, out. split; [done|].
  apply finish_entry_Some in Ef as (g & _ & _ & _ & _ & Eid & _). cbn zeta in Eid.
  destruct (unique_id_enough (S (size known)) known
              (slugify (cl ++ u "-" ++ take 20 pr) (PyInt (e_year e))))
    as (r & Er & Hr & Hcases); [lia|].
  assert (r = e_id e) as -> by congruence. by split.
Qed.

Lemma accepted_chain_app (es1 : list entry) : ∀ known A1 es2 A2,
  accepted_chain known es1 A1 →
  accepted_chain (known ∪ list_to_set (map e_id es1)) es2 A2 →
  accepted_chain known (es1 ++ es2) (A1 ++ A2).
Proof.
  induction es1 as [|e es1 IH]; intros known A1 es2 A2 H1 H2; destruct A1 as [|rh A1];
    try done; cbn [map list_to_set app] in *.
  - by rewrite (right_id_L ∅ (∪)) in H2.
  - destruct H1 as [He H1]. split; [done|]. apply IH; [done|].
    by rewrite <- (assoc_L (∪)).
Qed.

(** The record at any place of a chain was classified against the ids
    known at the start and the ids of the records before it. *)
Lemma accepted_chain_at (before : list entry) : ∀ known e after A,
  accepted_chain known (before ++ e :: after) A →
  ∃ rh, rh ∈ A ∧ classified_against (known ∪ list_to_set (map e_id before)) rh e.
Proof.
  induction before as [|b before IH]; intros known e after A H; destruct A as [|rh0 A];
    try done; cbn [app accepted_chain map list_to_set] in *; destruct H as [H0 H].
  - exists rh0. split; [by left|]. by rewrite (right_id_L ∅ (∪)).
  - destruct (IH _ _ _ _ H) as (rh & Hin & Hc). exists rh. split; [by right|].
    by rewrite (assoc_L (∪)).
Qed.

Lemma run_extends_refl st : run_extends limit st st [].
Proof.
  exists [], [], []. cbn [map list_to_set accepted_chain].
  rewrite app_nil_r, (right_id_L ∅ (∪)).
  split; [done|]. split; [done|]. split; [done|]. split; [done|]. by left.
Qed.

Lemma run_extends_stop st st1 r1 r2 :
  run_extends limit st st1 r1 → limit_reached limit st1 = true →
  run_extends limit st st1 (r1 ++ r2).
Proof.
  intros (es & A' & A'' & Hnew & Hids & HA & Hes & _) Hr.
  exists es, A', (A'' ++ acceptable_rows r2).
  rewrite acceptable_rows_app, HA, <- app_assoc.
  split; [done|]. split; [done|]. split; [done|]. split; [done|]. by right.
Qed.

Lemma run_extends_trans st st1 st2 r1 r2 :
  run_extends limit st st1 r1 → limit_reached limit st1 = false →
  run_extends limit st1 st2 r2 →
  run_extends limit st st2 (r1 ++ r2).
Proof.
  intros (es1 & A1 & B1 & Hnew1 & Hids1 & HA1 & Hes1 & Hend1) Hr
         (es2 & A2 & B2 & Hnew2 & Hids2 & HA2 & Hes2 & Hend2).
  destruct Hend1 as [->|?]; [|congruence]. rewrite app_nil_r in HA1.
  exists (es1 ++ es2), (A1 ++ A2), B2.
  split; [by rewrite Hnew2, Hnew1, app_assoc|].
  split; [by rewrite Hids2, Hids1, map_app, list_to_set_app_L, (assoc_L (∪))|].
  split; [by rewrite acceptable_rows_app, HA1, HA2, app_assoc|].
  split; [|done]. apply accepted_chain_app; [done|].
  replace (existing_ids st ∪ list_to_set (map e_id (new_entries st))
           ∪ list_to_set (map e_id es1))
    with (existing_ids st1 ∪ list_to_set (map e_id (new_entries st1))); [done|].
  rewrite Hids1, Hnew1, map_app, list_to_set_app_L. apply set_eq. intros x.
  rewrite !elem_of_union. tauto.
Qed.

Lemma rows_loop_extends hint title (rows : table) : ∀ st,
  ∃ st', rows_loop limit hint title rows st = Returned st' ∧
         run_extends limit st st' (map (λ row, (row, hint ++ u " " ++ title)) rows).
Proof.
  induction rows as [|row rows IH]; intros st; cbn [rows_loop map].
  { exists st. split; [done|]. apply run_extends_refl. }
  pose proof (row_to_entry_decided row (hint ++ u " " ++ title)
                (existing_ids st ∪ list_to_set (map e_id (new_entries st)))) as Hrow.
  change ((row, hint ++ u " " ++ title) :: ?l) with ([(row, hint ++ u " " ++ title)] ++ l).
  destruct (acceptable row) eqn:Eacc.
  - destruct Hrow as [e He]. rewrite He. cbn [mbind result_bind].
    set (st1 := {| existing_ids := existing_ids st ∪ {[e_id e]};
                   new_entries := new_entries st ++ [e] |}).
    assert (H1 : run_extends limit st st1 [(row, hint ++ u " " ++ title)]).
    { exists [e], [(row, hint ++ u " " ++ title)], [].
      split; [done|]. split; [|split; [|split; [|by left]]].
      - cbn [existing_ids st1 map list_to_set]. by rewrite (right_id_L ∅ (∪)).
      - unfold acceptable_rows. cbn [List.filter fst]. by rewrite Eacc.
      - split; [|done]. by apply classified_of_accept. }
    destruct (limit_reached limit st1) eqn:E1.
    + exists st1. split; [done|]. by apply run_extends_stop.
    + destruct (IH st1) as (st' & -> & H'). exists st'. split; [done|].
      by eapply run_extends_trans.
  - rewrite Hrow. cbn [mbind result_bind]. destruct (IH st) as (st' & -> & H').
    exists st'. split; [done|]. destruct H' as (es & A' & A'' & ? & ? & HA & ? & ?).
    exists es, A', A''. split; [done|]. split; [done|]. split; [|done].
    rewrite acceptable_rows_app. unfold acceptable_rows at 1. cbn [List.filter fst].
    by rewrite Eacc.
Qed.

Lemma tables_loop_extends hint title (tabs : list table) : ∀ st,
  ∃ st', tables_loop limit hint title tabs st = Returned st' ∧
         run_extends limit st st' (page_rows title hint tabs).
Proof.
  induction tabs as [|t tabs IH]; intros st; cbn [tables_loop].
  { exists st. split; [done|]. apply run_extends_refl. }
  rewrite page_rows_cons.
  destruct (rows_loop_extends hint title t st) as (st1 & -> & H1).
  cbn [mbind result_bind]. destruct (limit_reached limit st1) eqn:E1.
  - exists st1. split; [done|]. by apply run_extends_stop.
  - destruct (IH st1) as (st' & -> & H'). exists st'. split; [done|].
    by eapply run_extends_trans.
Qed.

Lemma targets_loop_extends (targets : list (str * str)) : ∀ st,
  ∃ st', targets_loop fetch limit targets st = Returned st' ∧
         run_extends limit st st' (fetched_rows fetch targets).
Proof.
  induction targets as [|[title hint] targets IH]; intros st;
    cbn [targets_loop fetched_rows flat_map fst snd].
  { exists st. split; [done|]. apply run_extends_refl. }
  destruct (fetch title) as [html|]; [|by apply IH].
  destruct (tables_loop_extends hint title (extract_tables html) st) as (st1 & -> & H1).
  cbn [mbind result_bind]. destruct (limit_reached limit st1) eqn:E1.
  - exists st1. split; [done|]. by apply run_extends_stop.
  - destruct (IH st1) as (st' & -> & H'). exists st'. split; [done|].
    by eapply run_extends_trans.
Qed.

(** C4.  A run ends, and the ids of the records it accepted are pairwise
    distinct and differ from every id of the store, so that with a store
    of distinct ids no two ids of the store and the run are equal; the
    known ids at the end are those of the store and of the accepted
    records.  The accepted records are those of the acceptable rows the
    run met, one for one and in order (all of them unless the limit was
    reached), and each was classified against the ids of the store and of
    the records accepted before it: its id is the slug of its row when
    that is not among those ids, and otherwise the slug with the least
    suffix -1, -2, ... that is not among them. *)
Theorem main_ids_distinct (targets : list (str * str)) :
  ∃ st,
    targets_loop fetch limit targets
      {| existing_ids := list_to_set (map e_id db); new_entries := [] |} = Returned st ∧
    main fetch limit db targets = Returned (new_entries st) ∧
    NoDup (map e_id (new_entries st)) ∧
    (∀ i, i ∈ map e_id (new_entries st) → i ∉ map e_id db) ∧
    (∀ i, i ∈ existing_ids st ↔ i ∈ map e_id db ++ map e_id (new_entries st)) ∧
    (NoDup (map e_id db) → NoDup (map e_id (db ++ new_entries st))) ∧
    (∃ A' A'',
       acceptable_rows (fetched_rows fetch targets) = A' ++ A'' ∧
       (A'' = [] ∨ limit_reached limit st = true) ∧
       accepted_chain (list_to_set (map e_id db)) (new_entries st) A') ∧
    (∀ before e after,
       new_entries st = before ++ e :: after →
       ∃ rh, rh ∈ acceptable_rows (fetched_rows fetch targets) ∧
             classified_against
               (list_to_set (map e_id db) ∪ list_to_set (map e_id before)) rh e).
Proof.
  destruct (targets_loop_distinct fetch limit db targets _ (ids_distinct_init db))
    as (st & E & [H1 H2 H3 H4 H5]).
  destruct (targets_loop_extends targets
              {| existing_ids := list_to_set (map e_id db); new_entries := [] |})
    as (st' & E' & es & A' & A'' & Hnew & _ & HA & Hes & Hend).
  assert (st' = st) as -> by congruence.
  cbn [existing_ids new_entries map list_to_set app] in Hnew, Hes.
  rewrite (right_id_L ∅ (∪)) in Hes. subst es.
  exists st. unfold main. rewrite E. cbn [mbind result_bind].
  split; [done|]. split; [done|]. split; [done|]. split; [done|].
  split; [|split; [|split]].
  - intros i. split.
    + intros Hi. apply elem_of_app. by apply H3.
    + intros [Hi|Hi]%elem_of_app; [by apply H1 | by apply H2].
  - intros Hdb. rewrite map_app. apply NoDup_app. repeat split; try done.
    intros i Hi Hi'. by apply (H5 i).
  - by exists A', A''.
  - intros before e after Hsplit. rewrite Hsplit in Hes.
    destruct (accepted_chain_at _ _ _ _ _ Hes) as (rh & Hin & Hc).
    exists rh. split; [|done]. rewrite HA. apply elem_of_app. by left.
Qed.

End RunIds.
